(** * fiemap: multi-chunk extent retrieval (src/fiemap.c)

    A shallow embedding of [read_fiemap] and [main] of src/fiemap.c, with the
    kernel, the allocator and the file system as a scripted environment, and
    the properties of the retrieval loop proved about it.

    Conventions.
    - C integers are [Z]; every conversion the C code performs is written
      out ([to_u32], [to_u64], [to_int]).  The data model is LP64 Linux
      ([size_t] and [ulong] are 64 bits, [int] is 32 bits), the only platform
      that has <linux/fiemap.h>.
    - A heap block that holds a [struct fiemap] with its flexible array
      [fm_extents] is a record whose [fm_extents] list has as many entries as
      the block has room for.
    - What the program prints is kept as events that carry the values
      handed to [printf], not the text.  Wall-clock readings
      ([clock_gettime]) only feed the "in N seconds" part of two messages;
      they are left out of the events. *)

From Stdlib Require Import String.
From Stdlib Require Import ZArith List Bool Lia.
Import ListNotations.
Local Open Scope Z_scope.

(** ** Machine integers *)

(** Conversion to [__u32] / [unsigned int]. *)
Definition to_u32 (z : Z) : Z := z mod 2 ^ 32.

(** Conversion to [__u64] / [size_t] / [ulong]. *)
Definition to_u64 (z : Z) : Z := z mod 2 ^ 64.

(** Conversion to [int] (two's complement truncation, as gcc and clang do). *)
Definition to_int (z : Z) : Z :=
  let m := z mod 2 ^ 32 in if m <? 2 ^ 31 then m else m - 2 ^ 32.

(** ** Constants *)

(** <linux/fiemap.h>: [FIEMAP_FLAG_SYNC] and [FIEMAP_EXTENT_LAST] are both
    bit 0 of their flag words; [sizeof(struct fiemap)] is 32 and
    [sizeof(struct fiemap_extent)] is 56 (kernel ABI). *)
Definition FIEMAP_FLAG_SYNC : Z := 1.
Definition FIEMAP_EXTENT_LAST : Z := 1.
Definition sizeof_fiemap : Z := 32.
Definition sizeof_fiemap_extent : Z := 56.

(** fiemap.c:87-88 *)
Definition MAX_EXTENTS : Z := 1024.
Definition SIZE_OF_EXTENTS : Z := to_u64 (sizeof_fiemap_extent * MAX_EXTENTS).

(** <stdlib.h> *)
Definition EXIT_SUCCESS : Z := 0.
Definition EXIT_FAILURE : Z := 1.

(** <stdint.h>: no object is larger than this, so no allocation request
    above it can succeed. *)
Definition PTRDIFF_MAX : Z := 2 ^ 63 - 1.

(** ** Data model *)

(** [struct fiemap_extent]; the reserved words, which the program never
    reads, are left out. *)
Record fiemap_extent : Type := mk_extent {
  fe_logical : Z;
  fe_physical : Z;
  fe_length : Z;
  fe_flags : Z
}.

Definition zero_extent : fiemap_extent := mk_extent 0 0 0 0.

(** [struct fiemap].  [fm_extents] is the flexible array member: its length
    is the number of extents the block has room for. *)
Record fiemap : Type := mk_fiemap {
  fm_start : Z;
  fm_length : Z;
  fm_flags : Z;
  fm_mapped_extents : Z;
  fm_extent_count : Z;
  fm_reserved : Z;
  fm_extents : list fiemap_extent
}.

Definition set_extents (f : fiemap) (l : list fiemap_extent) : fiemap :=
  mk_fiemap (fm_start f) (fm_length f) (fm_flags f) (fm_mapped_extents f)
            (fm_extent_count f) (fm_reserved f) l.

Definition set_mapped_extents (f : fiemap) (n : Z) : fiemap :=
  mk_fiemap (fm_start f) (fm_length f) (fm_flags f) n
            (fm_extent_count f) (fm_reserved f) (fm_extents f).

(** ** The heap *)

Definition ptr : Type := nat.

(** The live blocks and the next fresh address. *)
Record heap : Type := mk_heap {
  live : list ptr;
  next : ptr
}.

Definition empty_heap : heap := mk_heap [] 1%nat.

(** [malloc]: [ok] says whether the system has the memory. *)
Definition malloc (ok : bool) (h : heap) : option ptr * heap :=
  if ok then (Some (next h), mk_heap (next h :: live h) (S (next h)))
  else (None, h).

Definition free (p : ptr) (h : heap) : heap :=
  mk_heap (remove Nat.eq_dec p (live h)) (next h).

(** [realloc(p, size)]: a request above [PTRDIFF_MAX] fails whatever memory
    there is; otherwise [ok] decides.  On success the old block is gone and
    a new one is live (the block may move); on failure the old block
    stays. *)
Definition realloc (ok : bool) (p : ptr) (size : Z) (h : heap) : option ptr * heap :=
  if (size <=? PTRDIFF_MAX) && ok
  then (Some (next h), mk_heap (next h :: remove Nat.eq_dec p (live h)) (S (next h)))
  else (None, h).

(** The extents a block of [size] bytes has room for after the header. *)
Definition capacity (size : Z) : nat :=
  Z.to_nat ((size - sizeof_fiemap) / sizeof_fiemap_extent).

(** What [realloc] does to the block's contents: the old contents up to the
    new size, then uninitialised memory ([junk]). *)
Definition realloc_contents (junk : fiemap_extent) (f : fiemap) (size : Z) : fiemap :=
  set_extents f
    (firstn (capacity size) (fm_extents f) ++
     repeat junk (capacity size - length (fm_extents f))).

(** [memcpy(dst + off, src, n * sizeof(struct fiemap_extent))] on extent
    arrays; [None] when it would read or write out of bounds. *)
Definition memcpy (dst : list fiemap_extent) (off : nat)
                  (src : list fiemap_extent) (n : nat) : option (list fiemap_extent) :=
  if (off + n <=? length dst)%nat && (n <=? length src)%nat
  then Some (firstn off dst ++ firstn n src ++ skipn (off + n) dst)
  else None.

(** ** The environment *)

Inductive fstat_result : Type :=
| FstatFail (errno : Z)
| FstatOk (st_size : Z).

(** One answer of [ioctl(fd, FS_IOC_FIEMAP, ...)]: an error, or the extents
    the file system mapped ([fm_mapped_extents] is their number). *)
Inductive ioctl_result : Type :=
| IoctlFail (errno : Z)
| IoctlOk (extents : list fiemap_extent).

(** What the system does during one iteration of the loop: the answer of
    the ioctl, and whether it has memory for the [realloc] should the
    iteration reach it. *)
Record chunk_io : Type := mk_io {
  io_ioctl : ioctl_result;
  io_realloc : bool
}.

(** Everything [read_fiemap] gets from outside for one file.  [w_chunks] is
    a finite script: a run that issues one query more than it answers is
    [Blocked] in that query. *)
Record world : Type := mk_world {
  w_fstat : fstat_result;
  w_malloc_fiemap : bool;
  w_malloc_result : bool;
  w_uninit : fiemap;
  w_junk : fiemap_extent;
  w_chunks : list chunk_io
}.

(** ** Observable events *)

Inductive message : Type :=
| MsgSyntax (prog : String.string)
| MsgCannotStat (errno : Z)
| MsgOutOfMemory
| MsgIoctlFailed (errno : Z)
| MsgCannotOpen (name : String.string) (errno : Z).

Inductive output : Type :=
| OutHeader
| OutExtent (index : Z) (e : fiemap_extent)
| OutRetrieved (n : Z)
| OutDone (n : Z)
| OutFile (name : String.string) (n : Z).

Inductive event : Type :=
| EvIoctl (request : fiemap)
| EvStderr (m : message)
| EvStdout (o : output).

(** What [dump_extents] prints (fiemap.c:49-62) when the extents it reads,
    [fm_extents[0]] to [fm_extents[fm_mapped_extents - 1]], are all inside
    the block. *)
Definition dump_lines (f : fiemap) (chunk : Z) : list event :=
  (if chunk =? 0 then [EvStdout OutHeader] else []) ++
  map (fun ie => EvStdout (OutExtent (to_int (chunk + Z.of_nat (fst ie))) (snd ie)))
      (combine (seq 0 (Z.to_nat (fm_mapped_extents f)))
               (firstn (Z.to_nat (fm_mapped_extents f)) (fm_extents f))) ++
  [EvStdout (OutRetrieved (fm_mapped_extents f))].

(** fiemap.c:47-63; [None] when the loop of fiemap.c:53-60 would read an
    extent past the end of the block. *)
Definition dump_extents (f : fiemap) (chunk : Z) : option (list event) :=
  if (Z.to_nat (fm_mapped_extents f) <=? length (fm_extents f))%nat
  then Some (dump_lines f chunk)
  else None.

(** fiemap.c:65-69 *)
Definition dump_fiemap (f : fiemap) (filename : String.string) : list event :=
  [EvStdout (OutFile filename (fm_mapped_extents f))].

(** ** [read_fiemap] (fiemap.c:76-185) *)

(** The variables the loop changes: the cursor, the running count, the
    result block (address and contents), and with them the heap and the
    events so far.  The chunk block [fiemap] is rebuilt in every iteration
    and its address never changes, so it is not part of the state. *)
Record loop_state : Type := mk_state {
  fiemap_start : Z;
  result_extents : Z;
  result_ptr : ptr;
  result_fiemap : fiemap;
  st_heap : heap;
  st_log : list event
}.

Definition emit (evs : list event) (s : loop_state) : loop_state :=
  mk_state (fiemap_start s) (result_extents s) (result_ptr s) (result_fiemap s)
           (st_heap s) (st_log s ++ evs).

(** fiemap.c:116-122: the chunk as handed to the ioctl. *)
Definition chunk_request (start len : Z) : fiemap :=
  {| fm_start := start;
     fm_length := len;
     fm_flags := FIEMAP_FLAG_SYNC;
     fm_mapped_extents := 0;
     fm_extent_count := MAX_EXTENTS;
     fm_reserved := 0;
     fm_extents := repeat zero_extent (capacity (to_u64 (sizeof_fiemap + SIZE_OF_EXTENTS))) |}.

(** The chunk after a successful ioctl: the kernel stores the number of
    mapped extents and writes them at the front of the array.  The array
    keeps its size: of an answer that broke the interface's contract it
    would hold only what fits. *)
Definition ioctl_fill (req : fiemap) (extents : list fiemap_extent) : fiemap :=
  set_mapped_extents
    (set_extents req
       (firstn (length (fm_extents req))
               (extents ++ skipn (length extents) (fm_extents req))))
    (Z.of_nat (length extents)).

(** fiemap.c:140 *)
Definition extents_size (result_extents mapped : Z) : Z :=
  to_int (to_u64 (sizeof_fiemap_extent * to_u32 (result_extents + mapped))).

Inductive append_exit : Type :=
| Appended (s : loop_state)
| OutOfMemory (s : loop_state)
| AppendUndefined.

(** fiemap.c:140-155: grow the result block and copy the chunk's extents
    behind the ones it holds. *)
Definition append_chunk (junk : fiemap_extent) (mem_ok : bool) (chunk : fiemap)
                        (s : loop_state) : append_exit :=
  let size := to_u64 (sizeof_fiemap + extents_size (result_extents s) (fm_mapped_extents chunk)) in
  match realloc mem_ok (result_ptr s) size (st_heap s) with
  | (None, _) => OutOfMemory (emit [EvStderr MsgOutOfMemory] s)
  | (Some fm_tmp, h) =>
      let grown := realloc_contents junk (result_fiemap s) size in
      match memcpy (fm_extents grown) (Z.to_nat (result_extents s))
                   (fm_extents chunk) (Z.to_nat (fm_mapped_extents chunk)) with
      | None => AppendUndefined
      | Some copied =>
          Appended (mk_state (fiemap_start s)
                             (to_u32 (result_extents s + fm_mapped_extents chunk))
                             fm_tmp (set_extents grown copied) h (st_log s))
      end
  end.

Inductive body_exit : Type :=
| Continue (s : loop_state)
| Break (s : loop_state)
| FailCleanup (s : loop_state)
| BodyUndefined.

(** fiemap.c:157-166: move the cursor behind the chunk's last extent and
    stop at the extent flagged as the file's last. *)
Definition advance (chunk : fiemap) (s : loop_state) : body_exit :=
  if fm_mapped_extents chunk =? 0 then Continue s
  else
    let i := to_u32 (fm_mapped_extents chunk - 1) in
    match nth_error (fm_extents chunk) (Z.to_nat i) with
    | None => BodyUndefined
    | Some e =>
        let s' := mk_state (to_u64 (fe_logical e + fe_length e)) (result_extents s)
                           (result_ptr s) (result_fiemap s) (st_heap s) (st_log s) in
        if Z.land (fe_flags e) FIEMAP_EXTENT_LAST =? 0 then Continue s' else Break s'
    end.

(** fiemap.c:116-166: one iteration of the loop, entered with
    [fiemap_start < fiemap_length]. *)
Definition loop_body (fiemap_length : Z) (junk : fiemap_extent) (io : chunk_io)
                     (s : loop_state) : body_exit :=
  let req := chunk_request (fiemap_start s) fiemap_length in
  let s := emit [EvIoctl req] s in
  match io_ioctl io with
  | IoctlFail errno => FailCleanup (emit [EvStderr (MsgIoctlFailed errno)] s)
  | IoctlOk extents =>
      let chunk := ioctl_fill req extents in
      match dump_extents chunk (to_int (result_extents s)) with
      | None => BodyUndefined
      | Some lines =>
          let s := emit lines s in
          if fm_mapped_extents chunk =? 0 then Break s
          else
            match append_chunk junk (io_realloc io) chunk s with
            | OutOfMemory s => FailCleanup s
            | AppendUndefined => BodyUndefined
            | Appended s => advance chunk s
            end
      end
  end.

Inductive loop_exit : Type :=
| LoopDone (s : loop_state)
| LoopFail (s : loop_state)
| LoopBlocked (s : loop_state)
| LoopUndefined.

(** fiemap.c:115-167.  Every iteration consumes one entry of the script. *)
Fixpoint fiemap_loop (fiemap_length : Z) (junk : fiemap_extent)
                     (chunks : list chunk_io) (s : loop_state) : loop_exit :=
  if fiemap_start s <? fiemap_length then
    match chunks with
    | [] => LoopBlocked (emit [EvIoctl (chunk_request (fiemap_start s) fiemap_length)] s)
    | io :: rest =>
        match loop_body fiemap_length junk io s with
        | Continue s' => fiemap_loop fiemap_length junk rest s'
        | Break s' => LoopDone s'
        | FailCleanup s' => LoopFail s'
        | BodyUndefined => LoopUndefined
        end
    end
  else LoopDone s.

(** How a run of [read_fiemap] ends: it returns [NULL] ([None]) or the
    result block, it stays in a query the script does not answer, or it
    runs into undefined behaviour. *)
Inductive outcome : Type :=
| Returned (r : option (ptr * fiemap)) (h : heap) (log : list event)
| Blocked (log : list event)
| Undefined.

(** fiemap.c:177-184 *)
Definition fail_cleanup (result_fiemap fiemap : option ptr) (h : heap) : heap :=
  let h := match result_fiemap with Some p => free p h | None => h end in
  match fiemap with Some p => free p h | None => h end.

(** The state [read_fiemap] enters the loop with (fiemap.c:84-85 and 104: the
    result block has a header of uninitialised memory and no room for
    extents). *)
Definition initial_state (w : world) (result : ptr) (h : heap) : loop_state :=
  mk_state 0 0 result (set_extents (w_uninit w) []) h [].

(** fiemap.c:76-185 *)
Definition read_fiemap (h : heap) (w : world) : outcome :=
  match w_fstat w with
  | FstatFail errno => Returned None h [EvStderr (MsgCannotStat errno)]
  | FstatOk st_size =>
      let fiemap_length := to_u64 st_size in
      match malloc (w_malloc_fiemap w) h with
      | (None, h) => Returned None h [EvStderr MsgOutOfMemory]
      | (Some fiemap, h) =>
          match malloc (w_malloc_result w) h with
          | (None, h) =>
              Returned None (fail_cleanup None (Some fiemap) h) [EvStderr MsgOutOfMemory]
          | (Some result, h) =>
              match fiemap_loop fiemap_length (w_junk w) (w_chunks w)
                                (initial_state w result h) with
              | LoopDone s =>
                  let r := set_mapped_extents (result_fiemap s) (result_extents s) in
                  Returned (Some (result_ptr s, r)) (free fiemap (st_heap s))
                           (st_log s ++ [EvStdout (OutDone (fm_mapped_extents r))])
              | LoopFail s =>
                  Returned None (fail_cleanup (Some (result_ptr s)) (Some fiemap) (st_heap s))
                           (st_log s)
              | LoopBlocked s => Blocked (st_log s)
              | LoopUndefined => Undefined
              end
          end
      end
  end.

(** ** [main] (fiemap.c:187-212) *)

(** What [open(argv[i], O_RDONLY)] gives: an error, or a descriptor of a
    file that behaves as [w]. *)
Inductive open_result : Type :=
| OpenFail (errno : Z)
| OpenOk (w : world).

Inductive main_outcome : Type :=
| Exited (status : Z) (h : heap) (log : list event)
| MainBlocked (log : list event)
| MainUndefined.

(** fiemap.c:196-210, over [argv[1..argc-1]] paired with what opening each
    gives. *)
Fixpoint main_loop (args : list (String.string * open_result)) (h : heap)
                   (log : list event) : main_outcome :=
  match args with
  | [] => Exited EXIT_SUCCESS h log
  | (name, OpenFail errno) :: rest =>
      main_loop rest h (log ++ [EvStderr (MsgCannotOpen name errno)])
  | (name, OpenOk w) :: rest =>
      match read_fiemap h w with
      | Returned (Some (_, fiemap)) h' l => main_loop rest h' (log ++ l ++ dump_fiemap fiemap name)
      | Returned None h' l => main_loop rest h' (log ++ l)
      | Blocked l => MainBlocked (log ++ l)
      | Undefined => MainUndefined
      end
  end.

(** fiemap.c:187-212; [argc] is one more than the number of file
    arguments. *)
Definition main (argv0 : String.string) (args : list (String.string * open_result))
                : main_outcome :=
  let argc := 1 + Z.of_nat (length args) in
  if argc <? 2 then Exited EXIT_FAILURE empty_heap [EvStderr (MsgSyntax argv0)]
  else main_loop args empty_heap [].

(** ** Reading a script and a log *)

(** The extents one answer reports (none when the call fails). *)
Definition extents_of (io : chunk_io) : list fiemap_extent :=
  match io_ioctl io with
  | IoctlOk extents => extents
  | IoctlFail _ => []
  end.

(** The mapped-extent count one answer reports. *)
Definition mapped_of (io : chunk_io) : Z := Z.of_nat (length (extents_of io)).

Fixpoint sum_mapped (chunks : list chunk_io) : Z :=
  match chunks with
  | [] => 0
  | io :: rest => mapped_of io + sum_mapped rest
  end.

Definition all_extents (chunks : list chunk_io) : list fiemap_extent :=
  concat (map extents_of chunks).

(** [fe_logical + fe_length] of an extent, as the [__u64] sum the code
    stores in [fiemap_start]. *)
Definition extent_end (e : fiemap_extent) : Z := to_u64 (fe_logical e + fe_length e).

Definition flagged_last (e : fiemap_extent) : bool :=
  negb (Z.land (fe_flags e) FIEMAP_EXTENT_LAST =? 0).

Definition last_extent (extents : list fiemap_extent) : fiemap_extent :=
  last extents zero_extent.

(** The interface's contract: an answer maps at most [fm_extent_count]
    extents. *)
Definition wf_answer (io : chunk_io) : bool :=
  (length (extents_of io) <=? Z.to_nat MAX_EXTENTS)%nat.

Definition wf_script (chunks : list chunk_io) : bool := forallb wf_answer chunks.

(** An answer after which the loop goes round again: the call succeeds
    with at least one extent, the system has memory for the grown result,
    the chunk's last extent is not flagged as the file's last, and it ends
    before [fiemap_length]. *)
Definition continuing (fiemap_length : Z) (io : chunk_io) : bool :=
  match io_ioctl io with
  | IoctlFail _ => false
  | IoctlOk extents =>
      negb (length extents =? 0)%nat && io_realloc io &&
      negb (flagged_last (last_extent extents)) &&
      (extent_end (last_extent extents) <? fiemap_length)
  end.

(** The three ways an answer ends the loop with success: by the flag on
    its last extent, by mapping no extent, or by moving the cursor to
    [fiemap_length] or past it.  In the first and the third the answer's
    extents are appended first, for which the system must have memory. *)
Definition stops_by_flag (io : chunk_io) : bool :=
  match io_ioctl io with
  | IoctlFail _ => false
  | IoctlOk extents =>
      negb (length extents =? 0)%nat && io_realloc io && flagged_last (last_extent extents)
  end.

Definition stops_by_zero (io : chunk_io) : bool :=
  match io_ioctl io with
  | IoctlFail _ => false
  | IoctlOk extents => (length extents =? 0)%nat
  end.

Definition stops_by_cursor (fiemap_length : Z) (io : chunk_io) : bool :=
  match io_ioctl io with
  | IoctlFail _ => false
  | IoctlOk extents =>
      negb (length extents =? 0)%nat && io_realloc io &&
      negb (flagged_last (last_extent extents)) &&
      (fiemap_length <=? extent_end (last_extent extents))
  end.

(** The largest [int]; [extents_size] is an [int]. *)
Definition INT_MAX : Z := 2 ^ 31 - 1.

(** The result block for [n] extents can be asked for: its size fits
    [extents_size]. *)
Definition fits (n : Z) : Prop := sizeof_fiemap_extent * n <= INT_MAX.

(** The requests of the interface calls in a log, in call order. *)
Fixpoint requests (log : list event) : list fiemap :=
  match log with
  | [] => []
  | EvIoctl req :: rest => req :: requests rest
  | _ :: rest => requests rest
  end.

Definition ioctl_calls (log : list event) : nat := length (requests log).

(** The messages written to the error stream, in order. *)
Fixpoint errors (log : list event) : list message :=
  match log with
  | [] => []
  | EvStderr m :: rest => m :: errors rest
  | _ :: rest => errors rest
  end.

(** The cursor the loop holds after an answer that it appended. *)
Definition cursor_after (io : chunk_io) : Z := extent_end (last_extent (extents_of io)).

(** No live block sits at or above the next fresh address. *)
Definition heap_wf (h : heap) : Prop := Forall (fun p => (p < next h)%nat) (live h).

(** ** States of the loop *)

(** The accumulator is consistent: the count is not negative, a block for
    that many extents can be asked for, and the result block holds exactly
    that many. *)
Definition acc_ok (s : loop_state) : Prop :=
  0 <= result_extents s /\ fits (result_extents s) /\
  length (fm_extents (result_fiemap s)) = Z.to_nat (result_extents s).

(** The heap after a successful [realloc] of block [p]. *)
Definition realloc_heap (p : ptr) (h : heap) : heap :=
  mk_heap (next h :: remove Nat.eq_dec p (live h)) (S (next h)).

(** The state one iteration leaves when it appends [extents]. *)
Definition appended (fiemap_length : Z) (extents : list fiemap_extent)
                    (s : loop_state) : loop_state :=
  let req := chunk_request (fiemap_start s) fiemap_length in
  mk_state (extent_end (last_extent extents))
           (result_extents s + Z.of_nat (length extents))
           (next (st_heap s))
           (set_extents (result_fiemap s) (fm_extents (result_fiemap s) ++ extents))
           (realloc_heap (result_ptr s) (st_heap s))
           (st_log s ++ EvIoctl req ::
              dump_lines (ioctl_fill req extents) (to_int (result_extents s))).

(** [iterates len junk s done s']: entered in state [s], the loop has gone
    through the iterations answered by [done], each ending at the bottom of
    the body, and is back at its head in state [s']. *)
Inductive iterates (fiemap_length : Z) (junk : fiemap_extent)
  : loop_state -> list chunk_io -> loop_state -> Prop :=
| iterates_nil (s : loop_state) : iterates fiemap_length junk s [] s
| iterates_step (s s' s'' : loop_state) (io : chunk_io) (done : list chunk_io) :
    fiemap_start s < fiemap_length ->
    loop_body fiemap_length junk io s = Continue s' ->
    iterates fiemap_length junk s' done s'' ->
    iterates fiemap_length junk s (io :: done) s''.

(** The state after the iterations answered by [pre], each of which
    appends its extents. *)
Fixpoint appended_all (fiemap_length : Z) (pre : list chunk_io) (s : loop_state)
  : loop_state :=
  match pre with
  | [] => s
  | io :: rest => appended_all fiemap_length rest (appended fiemap_length (extents_of io) s)
  end.

(** The loop owns the result block: it is live, next to the blocks
    [others], and no other block shares its address. *)
Definition owns (s : loop_state) (others : list ptr) : Prop :=
  live (st_heap s) = result_ptr s :: others /\
  heap_wf (st_heap s) /\
  ~ In (result_ptr s) others.

(** Two states that differ at most in where the result block lies. *)
Definition same_data (s1 s2 : loop_state) : Prop :=
  fiemap_start s1 = fiemap_start s2 /\
  result_extents s1 = result_extents s2 /\
  result_fiemap s1 = result_fiemap s2 /\
  st_log s1 = st_log s2.

(** The events of a run (none are kept of a run that went undefined). *)
Definition log_of (o : outcome) : list event :=
  match o with
  | Returned _ _ log => log
  | Blocked log => log
  | Undefined => []
  end.

Definition exit_log (e : loop_exit) : list event :=
  match e with
  | LoopDone s | LoopFail s | LoopBlocked s => st_log s
  | LoopUndefined => []
  end.

(** The run returns to its caller. *)
Definition returns (o : outcome) : bool :=
  match o with
  | Returned _ _ _ => true
  | _ => false
  end.

(** The heap [read_fiemap] enters the loop with: the chunk block at the
    first fresh address, the result block at the second. *)
Definition entry_heap (h : heap) : heap :=
  mk_heap (S (next h) :: next h :: live h) (S (S (next h))).

(** What the iterations answered by [done] have made of state [s] in
    [s']: one interface call each, their extents counted and appended in
    order, no message on the error stream. *)
Definition progress (s s' : loop_state) (done : list chunk_io) : Prop :=
  ioctl_calls (st_log s') = (ioctl_calls (st_log s) + length done)%nat /\
  result_extents s' = result_extents s + sum_mapped done /\
  result_fiemap s'
  = set_extents (result_fiemap s) (fm_extents (result_fiemap s) ++ all_extents done) /\
  errors (st_log s') = errors (st_log s).

(** The contents of the block a run returned, if it returned one. *)
Definition result_of (o : outcome) : option fiemap :=
  match o with
  | Returned (Some (_, r)) _ _ => Some r
  | _ => None
  end.

(** ** The accumulator on its own *)

(** The chunk block holding [extents] after a query. *)
Definition chunk_of (extents : list fiemap_extent) : fiemap :=
  ioctl_fill (chunk_request 0 0) extents.

(** The appends of successive iterations (fiemap.c:140-155), one per chunk,
    on a system with memory. *)
Fixpoint append_all (junk : fiemap_extent) (chunks : list (list fiemap_extent))
                    (s : loop_state) : append_exit :=
  match chunks with
  | [] => Appended s
  | extents :: rest =>
      match append_chunk junk true (chunk_of extents) s with
      | Appended s' => append_all junk rest s'
      | OutOfMemory s' => OutOfMemory s'
      | AppendUndefined => AppendUndefined
      end
  end.

(** Every chunk fits the chunk block. *)
Definition wf_chunks (chunks : list (list fiemap_extent)) : bool :=
  forallb (fun extents => (length extents <=? Z.to_nat MAX_EXTENTS)%nat) chunks.

(** ** Runs without their addresses *)

Definition body_same (a b : body_exit) : Prop :=
  match a, b with
  | Continue x, Continue y | Break x, Break y | FailCleanup x, FailCleanup y =>
      same_data x y
  | BodyUndefined, BodyUndefined => True
  | _, _ => False
  end.

Definition exit_same (a b : loop_exit) : Prop :=
  match a, b with
  | LoopDone x, LoopDone y | LoopFail x, LoopFail y | LoopBlocked x, LoopBlocked y =>
      same_data x y
  | LoopUndefined, LoopUndefined => True
  | _, _ => False
  end.

(** What a caller that does not look at addresses sees of a run. *)
Inductive observed : Type :=
| SawResult (r : fiemap) (log : list event)
| SawNull (log : list event)
| SawBlocked (log : list event)
| SawUndefined.

Definition observe (o : outcome) : observed :=
  match o with
  | Returned (Some (_, r)) _ log => SawResult r log
  | Returned None _ log => SawNull log
  | Blocked log => SawBlocked log
  | Undefined => SawUndefined
  end.

(** What [main] writes for one argument (fiemap.c:199-209). *)
Definition file_events (arg : String.string * open_result) : list event :=
  match arg with
  | (name, OpenFail errno) => [EvStderr (MsgCannotOpen name errno)]
  | (name, OpenOk w) =>
      match observe (read_fiemap empty_heap w) with
      | SawResult r log => log ++ dump_fiemap r name
      | SawNull log | SawBlocked log => log
      | SawUndefined => []
      end
  end.

(** The argument is a file that opens and whose queries are all
    answered. *)
Definition file_returns (arg : String.string * open_result) : bool :=
  match arg with
  | (_, OpenFail _) => true
  | (_, OpenOk w) => returns (read_fiemap empty_heap w)
  end.

(** The "File ... has ... extents" lines of a log (fiemap.c:67). *)
Fixpoint file_lines (log : list event) : list (String.string * Z) :=
  match log with
  | [] => []
  | EvStdout (OutFile name n) :: rest => (name, n) :: file_lines rest
  | _ :: rest => file_lines rest
  end.

(** The argument cannot be opened, or its query returns [NULL]. *)
Definition file_fails (arg : String.string * open_result) : bool :=
  match arg with
  | (_, OpenFail _) => true
  | (_, OpenOk w) =>
      match observe (read_fiemap empty_heap w) with
      | SawNull _ => true
      | _ => false
      end
  end.

(** The argument is reported on the error stream and gets no line on the
    output. *)
Definition reported_and_skipped (arg : String.string * open_result) : Prop :=
  errors (file_events arg) <> [] /\ file_lines (file_events arg) = [].

(** The argument gets its line on the output, with the number of extents
    found, and nothing on the error stream. *)
Definition processed (arg : String.string * open_result) : Prop :=
  errors (file_events arg) = [] /\
  exists n, file_lines (file_events arg) = [(fst arg, n)].

(** ** Example files *)

(** A one-block extent at logical block [block]. *)
Definition extent_at (block flags : Z) : fiemap_extent :=
  mk_extent (4096 * block) (1048576 + 4096 * block) 4096 flags.

(** [n] consecutive one-block extents from block [first], none flagged. *)
Definition blocks (first : Z) (n : nat) : list fiemap_extent :=
  map (fun i => extent_at (first + Z.of_nat i) 0) (seq 0 n).

(** The same, the last one flagged as the file's last extent. *)
Definition blocks_last (first : Z) (n : nat) : list fiemap_extent :=
  blocks first (n - 1) ++ [extent_at (first + Z.of_nat n - 1) FIEMAP_EXTENT_LAST].

Definition answer (extents : list fiemap_extent) : chunk_io := mk_io (IoctlOk extents) true.

Definition uninit_header : fiemap := mk_fiemap 170 170 170 170 170 170 [].
Definition junk_extent : fiemap_extent := mk_extent 170 170 170 170.

(** A file of [st_size] bytes whose queries are answered by [chunks], on
    a system with memory. *)
Definition file_of (st_size : Z) (chunks : list chunk_io) : world :=
  mk_world (FstatOk st_size) true true uninit_header junk_extent chunks.

(** 2053 blocks, answered as 1024 + 1024 + 5 extents. *)
Definition three_chunk_file : world :=
  file_of (2053 * 4096)
          [answer (blocks 0 1024); answer (blocks 1024 1024); answer (blocks_last 2048 5)].

(** The same file, the second query failing with [EIO]. *)
Definition failing_file : world :=
  file_of (2053 * 4096)
          [answer (blocks 0 1024); mk_io (IoctlFail 5) true; answer (blocks_last 2048 5)].

(** Eight blocks, answered as 4 + 4 extents. *)
Definition two_chunk_file : world :=
  file_of (8 * 4096) [answer (blocks 0 4); answer (blocks_last 4 4)].

(** Two blocks; the second answer repeats the first, so the cursor stays
    where it was. *)
Definition repeating_file : world :=
  file_of (2 * 4096)
          [answer (blocks 0 1); answer (blocks 0 1); answer (blocks_last 1 1)].

(** Four blocks, answered as 2 + 2 extents, none flagged as last. *)
Definition unflagged_file : world :=
  file_of (4 * 4096) [answer (blocks 0 2); answer (blocks 2 2); answer (blocks 4 2)].

(** An empty file; the scripted answer is never asked for. *)
Definition empty_file : world := file_of 0 [answer (blocks_last 0 1)].

(** A descriptor whose [fstat] fails with [EBADF]. *)
Definition unreadable_file : world :=
  mk_world (FstatFail 9) true true uninit_header junk_extent [].

(** Eight blocks; the second query fails with [EIO]. *)
Definition broken_file : world :=
  file_of (8 * 4096) [answer (blocks 0 4); mk_io (IoctlFail 5) true].

(** A command line: a name that does not open ([ENOENT]), a file whose
    query fails, and a file that is mapped. *)
Definition example_args : list (String.string * open_result) :=
  [("missing"%string, OpenFail 2);
   ("broken"%string, OpenOk broken_file);
   ("good"%string, OpenOk two_chunk_file)].

(** ** Elapsed time (fiemap.c:71-74, 61, 173) *)

(** [struct timespec]; both fields are [long]. *)
Record timespec : Type := mk_timespec {
  tv_sec : Z;
  tv_nsec : Z
}.

(** The value of a [long] / [long long] operation: overflow of signed
    arithmetic is undefined, so there is a value only in range. *)
Definition long_op (z : Z) : option Z :=
  if (- 2 ^ 63 <=? z) && (z <? 2 ^ 63) then Some z else None.

(** fiemap.c:71-74 *)
Definition get_time_delta (start end_ : timespec) : option Z :=
  match long_op (tv_nsec end_ - tv_nsec start), long_op (tv_sec end_ - tv_sec start) with
  | Some nsec, Some sec =>
      match long_op (sec * 1000000000) with
      | Some scaled => long_op (nsec + scaled)
      | None => None
      end
  | _, _ => None
  end.

(** [elapsed / 1000000000L] as the two "in N seconds" messages print it
    (fiemap.c:61, 173): C division truncates towards zero. *)
Definition elapsed_seconds (elapsed : Z) : Z := Z.quot elapsed 1000000000.

(** A reading of the clock in nanoseconds. *)
Definition nanoseconds (t : timespec) : Z := tv_sec t * 1000000000 + tv_nsec t.

(** A reading as [clock_gettime] gives it: the nanoseconds are within one
    second, and the seconds are far from the ends of [long] (here: within
    2^32, over a century). *)
Definition clock_reading (t : timespec) : bool :=
  (0 <=? tv_nsec t) && (tv_nsec t <? 1000000000) &&
  (- 2 ^ 32 <=? tv_sec t) && (tv_sec t <=? 2 ^ 32).

(** ** What a run prints *)

(** The extent lines of a log, each with the number printed before it
    (fiemap.c:54-59). *)
Fixpoint extent_lines (log : list event) : list (Z * fiemap_extent) :=
  match log with
  | [] => []
  | EvStdout (OutExtent index e) :: rest => (index, e) :: extent_lines rest
  | _ :: rest => extent_lines rest
  end.

(** [extents] numbered consecutively from [first]. *)
Definition numbered (first : Z) (extents : list fiemap_extent)
  : list (Z * fiemap_extent) :=
  map (fun ie => (first + Z.of_nat (fst ie), snd ie))
      (combine (seq 0 (length extents)) extents).

(** The argument opens and [read_fiemap] returns its map. *)
Definition file_mapped (arg : String.string * open_result) : bool :=
  match arg with
  | (_, OpenFail _) => false
  | (_, OpenOk w) =>
      match result_of (read_fiemap empty_heap w) with
      | Some _ => true
      | None => false
      end
  end.

(** The answers to the argument's queries keep the interface's
    contract. *)
Definition file_wf (arg : String.string * open_result) : bool :=
  match arg with
  | (_, OpenFail _) => true
  | (_, OpenOk w) => wf_script (w_chunks w)
  end.

(** The line [main] prints for a mapped file: its name and the number of
    extents in its map. *)
Definition file_line (arg : String.string * open_result) : list (String.string * Z) :=
  match arg with
  | (_, OpenFail _) => []
  | (name, OpenOk w) =>
      match result_of (read_fiemap empty_heap w) with
      | Some r => [(name, Z.of_nat (length (fm_extents r)))]
      | None => []
      end
  end.

(** ** More example files *)

(** Eight blocks; the system has no memory to grow the result for the
    second chunk. *)
Definition starved_file : world :=
  file_of (8 * 4096) [answer (blocks 0 4); mk_io (IoctlOk (blocks_last 4 4)) false].

(** A file for whose result block there is no memory at the start. *)
Definition no_result_memory : world :=
  mk_world (FstatOk (8 * 4096)) true false uninit_header junk_extent
           [answer (blocks_last 0 8)].

(** Two readings of the monotonic clock, 2.3 seconds apart. *)
Definition reading_before : timespec := mk_timespec 1000 900000000.
Definition reading_after : timespec := mk_timespec 1003 200000000.

(** ** The summary lines of a run *)

(** The counts of the "retrieved ... extents" lines of a log
    (fiemap.c:61), one for every chunk that was dumped. *)
Fixpoint retrieved_lines (log : list event) : list Z :=
  match log with
  | [] => []
  | EvStdout (OutRetrieved n) :: rest => n :: retrieved_lines rest
  | _ :: rest => retrieved_lines rest
  end.

(** The column headers, the chunk summaries and the closing lines of a log
    (fiemap.c:50, 61, 173), without the extent lines between them. *)
Fixpoint summary_lines (log : list event) : list output :=
  match log with
  | [] => []
  | EvStdout OutHeader :: rest => OutHeader :: summary_lines rest
  | EvStdout (OutRetrieved n) :: rest => OutRetrieved n :: summary_lines rest
  | EvStdout (OutDone n) :: rest => OutDone n :: summary_lines rest
  | _ :: rest => summary_lines rest
  end.

(** Chunk summaries under one header, if there is any. *)
Definition headed (counts : list Z) : list output :=
  match counts with
  | [] => []
  | _ :: _ => OutHeader :: map OutRetrieved counts
  end.

Definition total (counts : list Z) : Z := fold_right Z.add 0 counts.

(** The listing printed so far agrees with the running count. *)
Definition listing_ok (s : loop_state) : Prop :=
  summary_lines (st_log s) = headed (retrieved_lines (st_log s)) /\
  total (retrieved_lines (st_log s)) = result_extents s /\
  (result_extents s = 0 -> retrieved_lines (st_log s) = []).

(** * Properties *)

(** ** Machine integers and sizes *)

(** Turn the powers of two of the integer types into numerals for [lia]. *)
Ltac pow2 :=
  change (2 ^ 31) with 2147483648 in *;
  change (2 ^ 32) with 4294967296 in *;
  change (2 ^ 63) with 9223372036854775808 in *;
  change (2 ^ 64) with 18446744073709551616 in *.

Lemma to_u32_small (z : Z) : 0 <= z < 2 ^ 32 -> to_u32 z = z.
Proof. intros H. unfold to_u32. now apply Z.mod_small. Qed.

Lemma to_u64_small (z : Z) : 0 <= z < 2 ^ 64 -> to_u64 z = z.
Proof. intros H. unfold to_u64. now apply Z.mod_small. Qed.

Lemma to_int_small (z : Z) : 0 <= z < 2 ^ 31 -> to_int z = z.
Proof.
  intros H. unfold to_int. cbv zeta. pow2.
  rewrite Z.mod_small by lia.
  destruct (Z.ltb_spec z 2147483648); [reflexivity | lia].
Qed.

Lemma to_int_high (z : Z) : 2 ^ 31 <= z < 2 ^ 32 -> to_int z = z - 2 ^ 32.
Proof.
  intros H. unfold to_int. cbv zeta. pow2.
  rewrite Z.mod_small by lia.
  destruct (Z.ltb_spec z 2147483648); [lia | reflexivity].
Qed.

(** Below the [int] limit [extents_size] is the exact byte size. *)
Lemma extents_size_fits (result_extents mapped : Z) :
  0 <= result_extents + mapped -> fits (result_extents + mapped) ->
  extents_size result_extents mapped = sizeof_fiemap_extent * (result_extents + mapped).
Proof.
  unfold fits, INT_MAX, extents_size, sizeof_fiemap_extent. intros H0 H.
  rewrite to_u32_small by (pow2; lia).
  rewrite to_u64_small by (pow2; lia).
  apply to_int_small. pow2. lia.
Qed.

(** Just above it [extents_size] is negative, and the size handed to
    [realloc] wraps to more than [PTRDIFF_MAX]. *)
Lemma realloc_size_overflow (result_extents mapped : Z) :
  0 <= result_extents -> fits result_extents -> 0 <= mapped <= MAX_EXTENTS ->
  ~ fits (result_extents + mapped) ->
  PTRDIFF_MAX < to_u64 (sizeof_fiemap + extents_size result_extents mapped).
Proof.
  unfold fits, INT_MAX, extents_size, sizeof_fiemap_extent, sizeof_fiemap, MAX_EXTENTS, PTRDIFF_MAX.
  intros H0 H1 H2 H3.
  rewrite to_u32_small by (pow2; lia).
  rewrite (to_u64_small (56 * (result_extents + mapped))) by (pow2; lia).
  rewrite to_int_high by (pow2; lia).
  unfold to_u64. pow2.
  assert (Hm : (32 + (56 * (result_extents + mapped) - 4294967296)) mod 18446744073709551616
               = 32 + (56 * (result_extents + mapped) - 4294967296) + 18446744073709551616).
  { symmetry. apply Z.mod_unique with (q := -1); lia. }
  rewrite Hm. lia.
Qed.

Lemma realloc_size_fits (result_extents mapped : Z) :
  0 <= result_extents + mapped -> fits (result_extents + mapped) ->
  to_u64 (sizeof_fiemap + extents_size result_extents mapped)
  = sizeof_fiemap + sizeof_fiemap_extent * (result_extents + mapped).
Proof.
  intros H0 H. rewrite extents_size_fits by assumption.
  unfold fits, INT_MAX, sizeof_fiemap_extent, sizeof_fiemap in *.
  apply to_u64_small. pow2. lia.
Qed.

Lemma capacity_exact (n : Z) :
  capacity (sizeof_fiemap + sizeof_fiemap_extent * n) = Z.to_nat n.
Proof.
  unfold capacity. f_equal.
  replace (sizeof_fiemap + sizeof_fiemap_extent * n - sizeof_fiemap)
    with (n * sizeof_fiemap_extent) by lia.
  apply Z.div_mul. discriminate.
Qed.

Lemma chunk_capacity :
  capacity (to_u64 (sizeof_fiemap + SIZE_OF_EXTENTS)) = Z.to_nat MAX_EXTENTS.
Proof. reflexivity. Qed.

Lemma fits_le (a b : Z) : fits a -> b <= a -> fits b.
Proof. unfold fits, sizeof_fiemap_extent. lia. Qed.

(** ** Arrays *)

Lemma firstn_app_exact {A : Type} (l r : list A) : firstn (length l) (l ++ r) = l.
Proof. induction l as [|x l IH]; simpl; [now destruct r | now rewrite IH]. Qed.

Lemma nth_error_last {A : Type} (l : list A) (d : A) :
  l <> [] -> nth_error l (length l - 1) = Some (last l d).
Proof.
  induction l as [|x l IH]; intros Hne; [congruence|].
  destruct l as [|y l]; [reflexivity|].
  specialize (IH ltac:(discriminate)).
  replace (length (x :: y :: l) - 1)%nat with (S (length (y :: l) - 1))
    by (simpl; lia).
  exact IH.
Qed.

Lemma last_nonempty {A : Type} (l : list A) (d d' : A) :
  l <> [] -> last l d = last l d'.
Proof.
  induction l as [|x l IH]; intros Hne; [congruence|].
  destruct l as [|y l]; [reflexivity|].
  change (last (y :: l) d = last (y :: l) d'). apply IH. discriminate.
Qed.

Lemma firstn_own_length {A : Type} (k : nat) (l : list A) :
  firstn (length (firstn k l)) l = firstn k l.
Proof.
  rewrite length_firstn.
  destruct (Nat.le_gt_cases k (length l)) as [Hle | Hgt].
  - now rewrite Nat.min_l.
  - rewrite Nat.min_r by lia. rewrite firstn_all. symmetry. apply firstn_all2. lia.
Qed.

Lemma forallb_cons_inv {A : Type} (f : A -> bool) (x : A) (l : list A) :
  forallb f (x :: l) = true -> f x = true /\ forallb f l = true.
Proof. cbn. apply andb_prop. Qed.

(** Growing a full block by [m] extents keeps what it holds and adds [m]
    uninitialised ones. *)
Lemma realloc_contents_grow (junk : fiemap_extent) (f : fiemap) (n m : Z) :
  length (fm_extents f) = Z.to_nat n -> 0 <= n -> 0 <= m ->
  fm_extents (realloc_contents junk f (sizeof_fiemap + sizeof_fiemap_extent * (n + m)))
  = fm_extents f ++ repeat junk (Z.to_nat m).
Proof.
  intros Hlen Hn Hm. unfold realloc_contents, set_extents. cbn [fm_extents].
  rewrite capacity_exact, Hlen.
  rewrite firstn_all2 by (rewrite Hlen; lia).
  f_equal. f_equal. lia.
Qed.

(** Copying [m] extents behind the [n] a block holds, into the room a
    [realloc] made, overwrites exactly the uninitialised part. *)
Lemma memcpy_append (junk : fiemap_extent) (old src pad : list fiemap_extent) :
  memcpy (old ++ repeat junk (length src)) (length old) (src ++ pad) (length src)
  = Some (old ++ src).
Proof.
  unfold memcpy.
  rewrite length_app, repeat_length, length_app.
  replace ((length old + length src <=? length old + length src)%nat) with true
    by (symmetry; apply Nat.leb_le; lia).
  replace ((length src <=? length src + length pad)%nat) with true
    by (symmetry; apply Nat.leb_le; lia).
  simpl. f_equal.
  rewrite firstn_app_exact, firstn_app_exact.
  rewrite skipn_all2 by (rewrite length_app, repeat_length; lia).
  now rewrite app_nil_r.
Qed.

(** ** Scripts and logs *)

Lemma mapped_of_nonneg (io : chunk_io) : 0 <= mapped_of io.
Proof. unfold mapped_of. lia. Qed.

Lemma sum_mapped_nonneg (chunks : list chunk_io) : 0 <= sum_mapped chunks.
Proof.
  induction chunks as [|io chunks IH]; cbn; [lia|].
  pose proof (mapped_of_nonneg io). lia.
Qed.

Lemma sum_mapped_app (a b : list chunk_io) :
  sum_mapped (a ++ b) = sum_mapped a + sum_mapped b.
Proof. induction a as [|io a IH]; cbn; [reflexivity | rewrite IH; lia]. Qed.

Lemma all_extents_app (a b : list chunk_io) :
  all_extents (a ++ b) = all_extents a ++ all_extents b.
Proof. unfold all_extents. now rewrite map_app, concat_app. Qed.

Lemma sum_mapped_length (chunks : list chunk_io) :
  sum_mapped chunks = Z.of_nat (length (all_extents chunks)).
Proof.
  induction chunks as [|io chunks IH]; [reflexivity|].
  cbn. unfold all_extents in *. cbn. rewrite length_app, IH. unfold mapped_of. lia.
Qed.

Lemma wf_script_app (a b : list chunk_io) :
  wf_script (a ++ b) = true -> wf_script a = true /\ wf_script b = true.
Proof. unfold wf_script. rewrite forallb_app. apply andb_prop. Qed.

Lemma wf_answer_length (io : chunk_io) :
  wf_answer io = true -> (length (extents_of io) <= Z.to_nat MAX_EXTENTS)%nat.
Proof. unfold wf_answer. apply Nat.leb_le. Qed.

Lemma continuing_inv (len : Z) (io : chunk_io) :
  continuing len io = true ->
  io_ioctl io = IoctlOk (extents_of io) /\ extents_of io <> [] /\
  io_realloc io = true /\ flagged_last (last_extent (extents_of io)) = false /\
  cursor_after io < len.
Proof.
  unfold continuing, cursor_after, extents_of.
  destruct (io_ioctl io) as [|extents]; [discriminate|].
  intros H. apply andb_prop in H as [H Hend]. apply andb_prop in H as [H Hflag].
  apply andb_prop in H as [Hne Hmem].
  repeat split.
  - intros ->. discriminate.
  - exact Hmem.
  - now apply negb_true_iff in Hflag.
  - now apply Z.ltb_lt.
Qed.

Lemma stops_by_flag_inv (io : chunk_io) :
  stops_by_flag io = true ->
  io_ioctl io = IoctlOk (extents_of io) /\ extents_of io <> [] /\
  io_realloc io = true /\ flagged_last (last_extent (extents_of io)) = true.
Proof.
  unfold stops_by_flag, extents_of.
  destruct (io_ioctl io) as [|extents]; [discriminate|].
  intros H. apply andb_prop in H as [H Hflag]. apply andb_prop in H as [Hne Hmem].
  repeat split; try assumption. intros ->. discriminate.
Qed.

Lemma stops_by_zero_inv (io : chunk_io) :
  stops_by_zero io = true -> io_ioctl io = IoctlOk [] /\ extents_of io = [].
Proof.
  unfold stops_by_zero, extents_of.
  destruct (io_ioctl io) as [|extents]; [discriminate|].
  destruct extents; [auto | discriminate].
Qed.

Lemma stops_by_cursor_inv (len : Z) (io : chunk_io) :
  stops_by_cursor len io = true ->
  io_ioctl io = IoctlOk (extents_of io) /\ extents_of io <> [] /\
  io_realloc io = true /\ flagged_last (last_extent (extents_of io)) = false /\
  len <= cursor_after io.
Proof.
  unfold stops_by_cursor, cursor_after, extents_of.
  destruct (io_ioctl io) as [|extents]; [discriminate|].
  intros H. apply andb_prop in H as [H Hend]. apply andb_prop in H as [H Hflag].
  apply andb_prop in H as [Hne Hmem].
  repeat split.
  - intros ->. discriminate.
  - exact Hmem.
  - now apply negb_true_iff in Hflag.
  - now apply Z.leb_le.
Qed.

Lemma requests_app (a b : list event) : requests (a ++ b) = requests a ++ requests b.
Proof.
  induction a as [|ev a IH]; [reflexivity|].
  destruct ev; cbn; now rewrite IH.
Qed.

Lemma errors_app (a b : list event) : errors (a ++ b) = errors a ++ errors b.
Proof.
  induction a as [|ev a IH]; [reflexivity|].
  destruct ev; cbn; now rewrite IH.
Qed.

Lemma file_lines_app (a b : list event) :
  file_lines (a ++ b) = file_lines a ++ file_lines b.
Proof.
  induction a as [|ev a IH]; [reflexivity|].
  destruct ev as [req | m | []]; cbn; now rewrite IH.
Qed.

Lemma requests_stdout (l : list output) : requests (map EvStdout l) = [].
Proof. induction l; cbn; auto. Qed.

Lemma errors_stdout (l : list output) : errors (map EvStdout l) = [].
Proof. induction l; cbn; auto. Qed.

Lemma dump_lines_stdout (f : fiemap) (chunk : Z) :
  exists l, dump_lines f chunk = map EvStdout l.
Proof.
  unfold dump_lines.
  exists ((if chunk =? 0 then [OutHeader] else []) ++
          map (fun ie => OutExtent (to_int (chunk + Z.of_nat (fst ie))) (snd ie))
              (combine (seq 0 (Z.to_nat (fm_mapped_extents f)))
                       (firstn (Z.to_nat (fm_mapped_extents f)) (fm_extents f))) ++
          [OutRetrieved (fm_mapped_extents f)]).
  rewrite !map_app, map_map. now destruct (chunk =? 0).
Qed.

Lemma requests_dump_lines (f : fiemap) (chunk : Z) : requests (dump_lines f chunk) = [].
Proof. destruct (dump_lines_stdout f chunk) as [l ->]. apply requests_stdout. Qed.

Lemma errors_dump_lines (f : fiemap) (chunk : Z) : errors (dump_lines f chunk) = [].
Proof. destruct (dump_lines_stdout f chunk) as [l ->]. apply errors_stdout. Qed.

Lemma file_lines_dump_lines (f : fiemap) (chunk : Z) :
  file_lines (dump_lines f chunk) = [].
Proof.
  unfold dump_lines. rewrite !file_lines_app.
  replace (file_lines (if chunk =? 0 then [EvStdout OutHeader] else [])) with
    (@nil (String.string * Z)) by now destruct (chunk =? 0).
  cbn. rewrite app_nil_r.
  induction (combine _ _) as [|ie l IH]; [reflexivity | exact IH].
Qed.

(** ** The heap *)

Lemma remove_fresh (p : ptr) (l : list ptr) :
  ~ In p l -> remove Nat.eq_dec p l = l.
Proof. intros H. now apply notin_remove. Qed.

Lemma remove_head_eq (p : ptr) (l : list ptr) :
  ~ In p l -> remove Nat.eq_dec p (p :: l) = l.
Proof. intros H. rewrite remove_cons. now apply remove_fresh. Qed.

Lemma remove_head_ne (p q : ptr) (l : list ptr) :
  p <> q -> remove Nat.eq_dec p (q :: l) = q :: remove Nat.eq_dec p l.
Proof. intros H. simpl. destruct (Nat.eq_dec p q); [contradiction | reflexivity]. Qed.

Lemma heap_wf_fresh (h : heap) : heap_wf h -> ~ In (next h) (live h).
Proof.
  unfold heap_wf. rewrite Forall_forall. intros Hwf Hin.
  specialize (Hwf _ Hin). lia.
Qed.

(** On the way out with the result, the chunk block is freed and the
    result block is the one block more than at entry. *)
Lemma live_after_done (s : loop_state) (c : ptr) (base : list ptr) :
  owns s (c :: base) -> ~ In c base ->
  live (free c (st_heap s)) = result_ptr s :: base.
Proof.
  intros (Hlive & _ & Hnot) Hc. unfold free. cbn [live next]. rewrite Hlive.
  assert (Hne : c <> result_ptr s) by (intros ->; apply Hnot; now left).
  rewrite remove_head_ne by assumption. now rewrite remove_head_eq.
Qed.

(** On the way out through [fail_cleanup], both blocks are freed. *)
Lemma live_after_fail (s : loop_state) (c : ptr) (base : list ptr) :
  owns s (c :: base) -> ~ In c base ->
  live (fail_cleanup (Some (result_ptr s)) (Some c) (st_heap s)) = base.
Proof.
  intros (Hlive & _ & Hnot) Hc. unfold fail_cleanup, free. cbn [live next]. rewrite Hlive.
  rewrite remove_head_eq by assumption.
  cbn [live]. now apply remove_head_eq.
Qed.

(** ** One append (fiemap.c:140-155) *)

Arguments chunk_request : simpl never.
Arguments capacity : simpl never.
Arguments dump_lines : simpl never.

Lemma ioctl_fill_mapped (req : fiemap) (extents : list fiemap_extent) :
  fm_mapped_extents (ioctl_fill req extents) = Z.of_nat (length extents).
Proof. reflexivity. Qed.

Lemma chunk_request_length (start len : Z) :
  length (fm_extents (chunk_request start len)) = Z.to_nat MAX_EXTENTS.
Proof. unfold chunk_request. cbn [fm_extents]. now rewrite repeat_length, chunk_capacity. Qed.

Lemma ioctl_fill_extents (req : fiemap) (extents : list fiemap_extent) :
  (length extents <= length (fm_extents req))%nat ->
  fm_extents (ioctl_fill req extents)
  = extents ++ skipn (length extents) (fm_extents req).
Proof.
  intros Hle. unfold ioctl_fill. cbn [fm_extents set_mapped_extents set_extents].
  apply firstn_all2. rewrite length_app, length_skipn. lia.
Qed.

(** Within the interface's contract [dump_extents] reads inside the chunk
    block. *)
Lemma dump_extents_filled (start span : Z) (extents : list fiemap_extent) (chunk : Z) :
  (length extents <= Z.to_nat MAX_EXTENTS)%nat ->
  dump_extents (ioctl_fill (chunk_request start span) extents) chunk
  = Some (dump_lines (ioctl_fill (chunk_request start span) extents) chunk).
Proof.
  intros Hle. unfold dump_extents.
  rewrite ioctl_fill_mapped, Nat2Z.id.
  rewrite ioctl_fill_extents by now rewrite chunk_request_length.
  rewrite length_app, length_skipn, chunk_request_length.
  replace (length extents <=? length extents + (Z.to_nat MAX_EXTENTS - length extents))%nat
    with true by (symmetry; apply Nat.leb_le; lia).
  reflexivity.
Qed.

Lemma dump_extents_some (f : fiemap) (chunk : Z) (lines : list event) :
  dump_extents f chunk = Some lines -> lines = dump_lines f chunk.
Proof.
  unfold dump_extents. destruct (_ <=? _)%nat; [|discriminate].
  intros H. now inversion H.
Qed.

Lemma set_extents_twice (f : fiemap) (a b : list fiemap_extent) :
  set_extents (set_extents f a) b = set_extents f b.
Proof. reflexivity. Qed.

Lemma set_extents_same (f : fiemap) : set_extents f (fm_extents f ++ []) = f.
Proof. rewrite app_nil_r. now destruct f. Qed.

(** With memory and below the [int] limit, the append grows the block to
    the new total and leaves the old extents followed by the chunk's. *)
Lemma append_chunk_ok (junk : fiemap_extent) (chunk : fiemap) (s : loop_state)
      (extents pad : list fiemap_extent) :
  acc_ok s ->
  fm_mapped_extents chunk = Z.of_nat (length extents) ->
  fm_extents chunk = extents ++ pad ->
  fits (result_extents s + Z.of_nat (length extents)) ->
  append_chunk junk true chunk s
  = Appended (mk_state (fiemap_start s)
                       (result_extents s + Z.of_nat (length extents))
                       (next (st_heap s))
                       (set_extents (result_fiemap s)
                                    (fm_extents (result_fiemap s) ++ extents))
                       (realloc_heap (result_ptr s) (st_heap s))
                       (st_log s)).
Proof.
  intros (Hre & Hfit & Hlen) Hm Hx Hfits.
  unfold append_chunk. rewrite Hm, Hx.
  rewrite realloc_size_fits by (assumption || lia).
  unfold realloc.
  replace (sizeof_fiemap + sizeof_fiemap_extent * (result_extents s + Z.of_nat (length extents))
           <=? PTRDIFF_MAX) with true.
  2:{ symmetry. apply Z.leb_le.
      unfold fits, INT_MAX, PTRDIFF_MAX, sizeof_fiemap in *. pow2. lia. }
  cbn [andb].
  assert (Hg : fm_extents (realloc_contents junk (result_fiemap s)
                 (sizeof_fiemap + sizeof_fiemap_extent *
                    (result_extents s + Z.of_nat (length extents))))
               = fm_extents (result_fiemap s) ++ repeat junk (length extents)).
  { rewrite realloc_contents_grow by (assumption || lia). now rewrite Nat2Z.id. }
  rewrite Hg, <- Hlen, Nat2Z.id, memcpy_append.
  unfold realloc_contents. rewrite set_extents_twice.
  rewrite to_u32_small; [reflexivity|].
  unfold fits, INT_MAX, sizeof_fiemap_extent in Hfits. pow2. lia.
Qed.

(** Without memory, or when the new total is past the [int] limit, the
    [realloc] fails and nothing of the state changes but the message. *)
Lemma append_chunk_oom (junk : fiemap_extent) (mem_ok : bool) (chunk : fiemap)
      (s : loop_state) :
  acc_ok s ->
  0 <= fm_mapped_extents chunk <= MAX_EXTENTS ->
  mem_ok = false \/ ~ fits (result_extents s + fm_mapped_extents chunk) ->
  append_chunk junk mem_ok chunk s = OutOfMemory (emit [EvStderr MsgOutOfMemory] s).
Proof.
  intros (Hre & Hfit & Hlen) Hm Hwhy.
  unfold append_chunk, realloc.
  destruct Hwhy as [-> | Hbig].
  - now rewrite andb_false_r.
  - pose proof (realloc_size_overflow _ _ Hre Hfit Hm Hbig) as Hov.
    apply Z.leb_gt in Hov. now rewrite Hov.
Qed.

(** An append never runs out of the bounds of either array. *)
Lemma append_chunk_defined (junk : fiemap_extent) (mem_ok : bool) (start len : Z)
      (extents : list fiemap_extent) (s : loop_state) :
  acc_ok s -> (length extents <= Z.to_nat MAX_EXTENTS)%nat ->
  append_chunk junk mem_ok (ioctl_fill (chunk_request start len) extents) s
  <> AppendUndefined.
Proof.
  intros Hok Hwf.
  assert (Hm : 0 <= Z.of_nat (length extents) <= MAX_EXTENTS)
    by (unfold MAX_EXTENTS in *; lia).
  destruct (Z_le_dec (sizeof_fiemap_extent * (result_extents s + Z.of_nat (length extents)))
                     INT_MAX) as [Hfits | Hbig].
  - destruct mem_ok.
    + erewrite append_chunk_ok; [discriminate | assumption | reflexivity | | exact Hfits].
      apply ioctl_fill_extents. now rewrite chunk_request_length.
    + rewrite append_chunk_oom; [discriminate | assumption | | now left].
      now rewrite ioctl_fill_mapped.
  - rewrite append_chunk_oom; [discriminate | assumption | | right].
    + now rewrite ioctl_fill_mapped.
    + now rewrite ioctl_fill_mapped.
Qed.

Lemma chunk_of_extents (extents : list fiemap_extent) :
  (length extents <= Z.to_nat MAX_EXTENTS)%nat ->
  fm_extents (chunk_of extents)
  = extents ++ skipn (length extents) (fm_extents (chunk_request 0 0)).
Proof.
  intros Hle. apply ioctl_fill_extents. now rewrite chunk_request_length.
Qed.

Section Loop.

(** The loop over one file: [len] is [fiemap_length], the size of the
    file as [fstat] gave it, and [junk] is what uninitialised memory
    holds. *)
Variable len : Z.
Variable junk : fiemap_extent.


(** ** One iteration (fiemap.c:116-166) *)

Lemma emit_emit (a b : list event) (s : loop_state) :
  emit b (emit a s) = emit (a ++ b) s.
Proof. unfold emit. cbn. now rewrite app_assoc. Qed.

Lemma acc_ok_emit (l : list event) (s : loop_state) : acc_ok (emit l s) <-> acc_ok s.
Proof. reflexivity. Qed.

Lemma owns_emit (l : list event) (s : loop_state) (others : list ptr) :
  owns (emit l s) others <-> owns s others.
Proof. reflexivity. Qed.

Lemma loop_body_ioctl_fails (io : chunk_io)
      (s : loop_state) (errno : Z) :
  io_ioctl io = IoctlFail errno ->
  loop_body len junk io s
  = FailCleanup (emit [EvIoctl (chunk_request (fiemap_start s) len);
                       EvStderr (MsgIoctlFailed errno)] s).
Proof. intros H. unfold loop_body. rewrite H. now rewrite emit_emit. Qed.

Lemma loop_body_zero (io : chunk_io) (s : loop_state) :
  io_ioctl io = IoctlOk [] ->
  loop_body len junk io s
  = Break (emit (EvIoctl (chunk_request (fiemap_start s) len) ::
                 dump_lines (ioctl_fill (chunk_request (fiemap_start s) len) [])
                              (to_int (result_extents s))) s).
Proof.
  intros H. unfold loop_body. rewrite H.
  rewrite dump_extents_filled by (cbn; lia). cbn. now rewrite emit_emit.
Qed.

Lemma mapped_nonzero (req : fiemap) (extents : list fiemap_extent) :
  extents <> [] -> (fm_mapped_extents (ioctl_fill req extents) =? 0) = false.
Proof.
  intros Hne. rewrite ioctl_fill_mapped. apply Z.eqb_neq.
  destruct extents; [congruence | simpl length; lia].
Qed.

Lemma advance_chunk (start span : Z) (extents : list fiemap_extent) (s : loop_state) :
  extents <> [] -> (length extents <= Z.to_nat MAX_EXTENTS)%nat ->
  advance (ioctl_fill (chunk_request start span) extents) s
  = (if flagged_last (last_extent extents) then Break else Continue)
      (mk_state (extent_end (last_extent extents)) (result_extents s)
                (result_ptr s) (result_fiemap s) (st_heap s) (st_log s)).
Proof.
  intros Hne Hwf. unfold advance.
  rewrite mapped_nonzero by assumption.
  rewrite ioctl_fill_mapped, ioctl_fill_extents by now rewrite chunk_request_length.
  assert (Hpos : (0 < length extents)%nat)
    by (destruct extents; [congruence | simpl; lia]).
  rewrite to_u32_small by (unfold MAX_EXTENTS in Hwf; pow2; lia).
  replace (Z.to_nat (Z.of_nat (length extents) - 1)) with (length extents - 1)%nat by lia.
  rewrite nth_error_app1 by lia.
  rewrite (nth_error_last extents zero_extent Hne).
  unfold flagged_last, last_extent, extent_end.
  now destruct (Z.land (fe_flags (last extents zero_extent)) FIEMAP_EXTENT_LAST =? 0).
Qed.

(** The iteration of an answer with extents, when the result can grow. *)
Lemma loop_body_appends (io : chunk_io)
      (s : loop_state) (extents : list fiemap_extent) :
  acc_ok s ->
  io_ioctl io = IoctlOk extents -> io_realloc io = true ->
  extents <> [] -> (length extents <= Z.to_nat MAX_EXTENTS)%nat ->
  fits (result_extents s + Z.of_nat (length extents)) ->
  loop_body len junk io s
  = (if flagged_last (last_extent extents) then Break else Continue)
      (appended len extents s).
Proof.
  intros Hok Hio Hmem Hne Hwf Hfits. unfold loop_body.
  rewrite Hio, Hmem, dump_extents_filled, mapped_nonzero by assumption.
  rewrite emit_emit.
  erewrite append_chunk_ok;
    [ | exact Hok | apply ioctl_fill_mapped
      | apply ioctl_fill_extents; now rewrite chunk_request_length | exact Hfits ].
  rewrite advance_chunk by assumption.
  reflexivity.
Qed.

(** The iteration of an answer with extents, when the result cannot
    grow. *)
Lemma loop_body_no_memory (io : chunk_io)
      (s : loop_state) (extents : list fiemap_extent) :
  acc_ok s ->
  io_ioctl io = IoctlOk extents ->
  extents <> [] -> (length extents <= Z.to_nat MAX_EXTENTS)%nat ->
  io_realloc io = false \/ ~ fits (result_extents s + Z.of_nat (length extents)) ->
  loop_body len junk io s
  = FailCleanup
      (emit (EvIoctl (chunk_request (fiemap_start s) len) ::
             dump_lines (ioctl_fill (chunk_request (fiemap_start s) len) extents)
                          (to_int (result_extents s)) ++
             [EvStderr MsgOutOfMemory]) s).
Proof.
  intros Hok Hio Hne Hwf Hwhy. unfold loop_body.
  rewrite Hio, dump_extents_filled, mapped_nonzero by assumption.
  rewrite emit_emit.
  rewrite append_chunk_oom.
  - rewrite emit_emit. reflexivity.
  - exact Hok.
  - rewrite ioctl_fill_mapped. unfold MAX_EXTENTS in *. lia.
  - rewrite ioctl_fill_mapped. exact Hwhy.
Qed.

(** Under the interface's contract an iteration takes one of four
    courses. *)
Lemma loop_body_cases (io : chunk_io) (s : loop_state) :
  acc_ok s -> wf_answer io = true ->
  (exists errno,
      io_ioctl io = IoctlFail errno /\
      loop_body len junk io s
      = FailCleanup (emit [EvIoctl (chunk_request (fiemap_start s) len);
                           EvStderr (MsgIoctlFailed errno)] s)) \/
  (io_ioctl io = IoctlOk [] /\
   loop_body len junk io s
   = Break (emit (EvIoctl (chunk_request (fiemap_start s) len) ::
                  dump_lines (ioctl_fill (chunk_request (fiemap_start s) len) [])
                               (to_int (result_extents s))) s)) \/
  (exists extents,
      io_ioctl io = IoctlOk extents /\ extents <> [] /\
      (io_realloc io = false \/ ~ fits (result_extents s + Z.of_nat (length extents))) /\
      loop_body len junk io s
      = FailCleanup
          (emit (EvIoctl (chunk_request (fiemap_start s) len) ::
                 dump_lines (ioctl_fill (chunk_request (fiemap_start s) len) extents)
                              (to_int (result_extents s)) ++
                 [EvStderr MsgOutOfMemory]) s)) \/
  (exists extents,
      io_ioctl io = IoctlOk extents /\ extents <> [] /\
      io_realloc io = true /\ fits (result_extents s + Z.of_nat (length extents)) /\
      loop_body len junk io s
      = (if flagged_last (last_extent extents) then Break else Continue)
          (appended len extents s)).
Proof.
  intros Hok Hwf. unfold wf_answer, extents_of in Hwf.
  destruct (io_ioctl io) as [errno | extents] eqn:Hio.
  - left. exists errno. split; [reflexivity|]. now apply loop_body_ioctl_fails.
  - apply Nat.leb_le in Hwf.
    destruct extents as [|e extents'] eqn:Hx.
    + right; left. split; [reflexivity|]. now apply loop_body_zero.
    + rewrite <- Hx in *.
      assert (Hne : extents <> []) by (rewrite Hx; discriminate).
      clear Hx.
      destruct (io_realloc io) eqn:Hmem;
        [ destruct (Z_le_dec (sizeof_fiemap_extent *
                               (result_extents s + Z.of_nat (length extents))) INT_MAX)
            as [Hfits | Hbig] | ].
      * right; right; right. exists extents.
        repeat split; try assumption. now apply loop_body_appends.
      * right; right; left. exists extents.
        repeat split; try assumption; [now right|].
        apply loop_body_no_memory; try assumption. now right.
      * right; right; left. exists extents.
        repeat split; try assumption; [now left|].
        apply loop_body_no_memory; try assumption. now left.
Qed.

(** Whatever the answer, an iteration that fails writes one message, an
    out-of-memory or an ioctl message, and one that does not writes
    none. *)
Lemma loop_body_errors (io : chunk_io) (s : loop_state) :
  match loop_body len junk io s with
  | Continue s' | Break s' => errors (st_log s') = errors (st_log s)
  | FailCleanup s' =>
      exists m, errors (st_log s') = errors (st_log s) ++ [m] /\
                (m = MsgOutOfMemory \/ exists errno, m = MsgIoctlFailed errno)
  | BodyUndefined => True
  end.
Proof.
  unfold loop_body. destruct (io_ioctl io) as [errno | extents].
  - exists (MsgIoctlFailed errno). unfold emit. cbn. rewrite !errors_app. cbn.
    rewrite app_nil_r. split; [reflexivity | right; now exists errno].
  - destruct (dump_extents _ _) as [lines|] eqn:Hd; [|exact I].
    apply dump_extents_some in Hd. subst lines.
    destruct (fm_mapped_extents _ =? 0).
    + unfold emit. cbn. rewrite !errors_app, errors_dump_lines. cbn.
      now rewrite !app_nil_r.
    + unfold append_chunk.
      destruct (realloc _ _ _ _) as [[fm_tmp|] h'].
      * destruct (memcpy _ _ _ _) as [copied|]; [|exact I].
        unfold advance. destruct (fm_mapped_extents _ =? 0).
        -- unfold emit. cbn. rewrite !errors_app, errors_dump_lines. cbn.
           now rewrite !app_nil_r.
        -- destruct (nth_error _ _); [|exact I].
           destruct (Z.land _ _ =? 0); unfold emit; cbn;
             rewrite !errors_app, errors_dump_lines; cbn; now rewrite !app_nil_r.
      * exists MsgOutOfMemory. unfold emit. cbn.
        rewrite !errors_app, errors_dump_lines. cbn.
        rewrite !app_nil_r. split; [reflexivity | now left].
Qed.

Lemma loop_body_file_lines (io : chunk_io)
      (s : loop_state) :
  match loop_body len junk io s with
  | Continue s' | Break s' | FailCleanup s' =>
      file_lines (st_log s') = file_lines (st_log s)
  | BodyUndefined => True
  end.
Proof.
  unfold loop_body. destruct (io_ioctl io) as [errno | extents].
  - unfold emit. cbn. rewrite !file_lines_app. cbn. now rewrite !app_nil_r.
  - destruct (dump_extents _ _) as [lines|] eqn:Hd; [|exact I].
    apply dump_extents_some in Hd. subst lines.
    destruct (fm_mapped_extents _ =? 0).
    + unfold emit. cbn. rewrite !file_lines_app, file_lines_dump_lines. cbn.
      now rewrite !app_nil_r.
    + unfold append_chunk.
      destruct (realloc _ _ _ _) as [[fm_tmp|] h'].
      * destruct (memcpy _ _ _ _) as [copied|]; [|exact I].
        unfold advance. destruct (fm_mapped_extents _ =? 0).
        -- unfold emit. cbn. rewrite !file_lines_app, file_lines_dump_lines. cbn.
           now rewrite !app_nil_r.
        -- destruct (nth_error _ _); [|exact I].
           destruct (Z.land _ _ =? 0); unfold emit; cbn;
             rewrite !file_lines_app, file_lines_dump_lines; cbn; now rewrite !app_nil_r.
      * unfold emit. cbn. rewrite !file_lines_app, file_lines_dump_lines. cbn.
        now rewrite !app_nil_r.
Qed.

Lemma loop_body_same_data (io : chunk_io)
      (s1 s2 : loop_state) :
  same_data s1 s2 -> body_same (loop_body len junk io s1) (loop_body len junk io s2).
Proof.
  destruct s1 as [c1 n1 p1 f1 h1 l1], s2 as [c2 n2 p2 f2 h2 l2].
  unfold same_data. cbn. intros (-> & -> & -> & ->).
  unfold loop_body. cbn [fiemap_start result_extents emit st_log].
  destruct (io_ioctl io) as [errno | extents].
  - cbn. repeat split.
  - destruct (dump_extents _ _) as [lines|]; [|exact I].
    destruct (fm_mapped_extents _ =? 0).
    + cbn. repeat split.
    + unfold append_chunk, realloc, emit.
      cbn [fiemap_start result_extents result_ptr result_fiemap st_heap st_log].
      destruct ((_ <=? PTRDIFF_MAX) && io_realloc io).
      * destruct (memcpy _ _ _ _); [|exact I].
        unfold advance. destruct (fm_mapped_extents _ =? 0); [cbn; repeat split|].
        destruct (nth_error _ _); [|exact I].
        destruct (Z.land _ _ =? 0); cbn; repeat split.
      * cbn. repeat split.
Qed.

(** ** Where an appending iteration leaves the state *)

Lemma acc_ok_appended (extents : list fiemap_extent) (s : loop_state) :
  acc_ok s -> fits (result_extents s + Z.of_nat (length extents)) ->
  acc_ok (appended len extents s).
Proof.
  intros (Hre & Hfit & Hlen) Hfits. unfold acc_ok, appended. cbn.
  repeat split; [lia | exact Hfits |].
  rewrite length_app, Hlen. lia.
Qed.

Lemma owns_appended (extents : list fiemap_extent) (s : loop_state)
      (others : list ptr) :
  owns s others -> owns (appended len extents s) others.
Proof.
  intros (Hlive & Hwf & Hnot). unfold owns, appended, heap_wf in *. cbn.
  rewrite Hlive in *. cbn. destruct (Nat.eq_dec (result_ptr s) (result_ptr s)); [|congruence].
  rewrite remove_fresh by assumption.
  inversion Hwf as [|? ? Hp Hothers]; subst.
  repeat split.
  - constructor; [lia|]. eapply Forall_impl; [|exact Hothers]. cbn. lia.
  - intros Hin. rewrite Forall_forall in Hothers. specialize (Hothers _ Hin). lia.
Qed.

Lemma requests_appended (extents : list fiemap_extent) (s : loop_state) :
  requests (st_log (appended len extents s))
  = requests (st_log s) ++ [chunk_request (fiemap_start s) len].
Proof.
  unfold appended. cbn [st_log]. rewrite requests_app. cbn [requests].
  now rewrite requests_dump_lines.
Qed.

Lemma errors_appended (extents : list fiemap_extent) (s : loop_state) :
  errors (st_log (appended len extents s)) = errors (st_log s).
Proof.
  unfold appended. cbn [st_log]. rewrite errors_app. cbn [errors].
  now rewrite errors_dump_lines, app_nil_r.
Qed.

Lemma progress_refl (s : loop_state) : progress s s [].
Proof.
  unfold progress. cbn. rewrite set_extents_same.
  repeat split; lia.
Qed.

Lemma progress_emit_stdout (s : loop_state) (req : fiemap) (l : list event) (io : chunk_io) :
  extents_of io = [] -> requests l = [] -> errors l = [] ->
  progress s (emit (EvIoctl req :: l) s) [io].
Proof.
  intros Hx Hr He. unfold progress, emit, ioctl_calls. cbn.
  rewrite requests_app, errors_app, length_app. cbn. rewrite Hr, He.
  unfold all_extents, mapped_of. cbn. rewrite Hx, !app_nil_r. cbn.
  repeat split; try lia. now destruct (result_fiemap s).
Qed.

Lemma progress_appended (s : loop_state) (io : chunk_io) :
  progress s (appended len (extents_of io) s) [io].
Proof.
  unfold progress. rewrite errors_appended. unfold ioctl_calls.
  rewrite requests_appended, length_app. unfold appended, all_extents. cbn.
  unfold mapped_of. rewrite app_nil_r. repeat split; lia || reflexivity.
Qed.

Lemma progress_trans (s s' s'' : loop_state) (a b : list chunk_io) :
  progress s s' a -> progress s' s'' b -> progress s s'' (a ++ b).
Proof.
  intros (Hc1 & Hr1 & Hf1 & He1) (Hc2 & Hr2 & Hf2 & He2). unfold progress.
  rewrite Hc2, Hc1, Hr2, Hr1, Hf2, Hf1, He2, He1.
  rewrite length_app, sum_mapped_app, all_extents_app. cbn.
  rewrite set_extents_twice, <- app_assoc.
  repeat split; lia.
Qed.

(** ** The loop (fiemap.c:115-167) *)

Lemma fiemap_loop_exit (chunks : list chunk_io)
      (s : loop_state) :
  len <= fiemap_start s -> fiemap_loop len junk chunks s = LoopDone s.
Proof.
  intros H. apply Z.ltb_ge in H. destruct chunks; cbn; now rewrite H.
Qed.

Lemma fiemap_loop_enter (io : chunk_io)
      (rest : list chunk_io) (s : loop_state) :
  fiemap_start s < len ->
  fiemap_loop len junk (io :: rest) s
  = match loop_body len junk io s with
    | Continue s' => fiemap_loop len junk rest s'
    | Break s' => LoopDone s'
    | FailCleanup s' => LoopFail s'
    | BodyUndefined => LoopUndefined
    end.
Proof. intros H. apply Z.ltb_lt in H. cbn. now rewrite H. Qed.

Lemma fiemap_loop_blocked (s : loop_state) :
  fiemap_start s < len ->
  fiemap_loop len junk [] s
  = LoopBlocked (emit [EvIoctl (chunk_request (fiemap_start s) len)] s).
Proof. intros H. apply Z.ltb_lt in H. cbn. now rewrite H. Qed.

(** After an answer that [continuing] describes, the loop goes round
    again from the state with the answer's extents appended. *)
Lemma loop_continues (io : chunk_io)
      (rest : list chunk_io) (s : loop_state) :
  acc_ok s -> fiemap_start s < len ->
  continuing len io = true -> wf_answer io = true ->
  fits (result_extents s + mapped_of io) ->
  loop_body len junk io s = Continue (appended len (extents_of io) s) /\
  fiemap_loop len junk (io :: rest) s
  = fiemap_loop len junk rest (appended len (extents_of io) s).
Proof.
  intros Hok Hlt Hc Hwf Hfits.
  destruct (continuing_inv _ _ Hc) as (Hio & Hne & Hmem & Hflag & Hend).
  assert (Hb : loop_body len junk io s = Continue (appended len (extents_of io) s)).
  { rewrite (loop_body_appends io s (extents_of io)); try assumption.
    - now rewrite Hflag.
    - now apply wf_answer_length. }
  split; [exact Hb|].
  rewrite fiemap_loop_enter by assumption. now rewrite Hb.
Qed.

(** ** A run of appending iterations *)

Lemma result_extents_appended_all (pre : list chunk_io) (s : loop_state) :
  result_extents (appended_all len pre s) = result_extents s + sum_mapped pre.
Proof.
  revert s. induction pre as [|io pre IH]; intros s; cbn; [lia|].
  rewrite IH. unfold appended, mapped_of. cbn. lia.
Qed.

Lemma result_fiemap_appended_all (pre : list chunk_io) (s : loop_state) :
  result_fiemap (appended_all len pre s)
  = set_extents (result_fiemap s) (fm_extents (result_fiemap s) ++ all_extents pre).
Proof.
  revert s. induction pre as [|io pre IH]; intros s; cbn.
  - unfold all_extents. cbn. rewrite app_nil_r. now destruct (result_fiemap s).
  - rewrite IH. unfold appended, all_extents. cbn.
    rewrite set_extents_twice. now rewrite <- app_assoc.
Qed.

Lemma acc_ok_appended_all (pre : list chunk_io) (s : loop_state) :
  acc_ok s -> fits (result_extents s + sum_mapped pre) ->
  acc_ok (appended_all len pre s).
Proof.
  revert s. induction pre as [|io pre IH]; intros s Hok Hfits; cbn; [exact Hok|].
  cbn in Hfits. pose proof (sum_mapped_nonneg pre).
  apply IH.
  - apply acc_ok_appended; [exact Hok|].
    apply fits_le with (1 := Hfits). unfold mapped_of. lia.
  - unfold appended. cbn. unfold mapped_of in Hfits.
    now rewrite <- Z.add_assoc.
Qed.

Lemma owns_appended_all (pre : list chunk_io) (s : loop_state)
      (others : list ptr) :
  owns s others -> owns (appended_all len pre s) others.
Proof.
  revert s. induction pre as [|io pre IH]; intros s Hown; cbn; [exact Hown|].
  apply IH. now apply owns_appended.
Qed.

Lemma fiemap_start_appended_all (pre : list chunk_io) (s : loop_state) :
  fiemap_start (appended_all len pre s) = last (map cursor_after pre) (fiemap_start s).
Proof.
  revert s. induction pre as [|io pre IH]; intros s; [reflexivity|].
  cbn [appended_all]. rewrite IH.
  destruct pre as [|io' pre]; [reflexivity|].
  cbn [map]. rewrite (last_nonempty _ _ (fiemap_start s)) by discriminate.
  reflexivity.
Qed.

Lemma cursor_appended_all (pre : list chunk_io) (s : loop_state) :
  fiemap_start s < len -> forallb (continuing len) pre = true ->
  fiemap_start (appended_all len pre s) < len.
Proof.
  revert s. induction pre as [|io pre IH]; intros s Hlt Hc; cbn; [exact Hlt|].
  apply forallb_cons_inv in Hc as [Hio Hc].
  apply IH; [|exact Hc].
  now destruct (continuing_inv _ _ Hio) as (_ & _ & _ & _ & Hend).
Qed.

Lemma errors_appended_all (pre : list chunk_io) (s : loop_state) :
  errors (st_log (appended_all len pre s)) = errors (st_log s).
Proof.
  revert s. induction pre as [|io pre IH]; intros s; cbn; [reflexivity|].
  rewrite IH. apply errors_appended.
Qed.

(** The requests of a run of appending iterations: the first starts at
    the cursor the run is entered with, each later one where the answer
    before it ended; all ask for [len] bytes. *)
Lemma requests_appended_all (pre : list chunk_io) (s : loop_state) :
  requests (st_log (appended_all len pre s))
  = requests (st_log s) ++
    map (fun start => chunk_request start len)
        (removelast (fiemap_start s :: map cursor_after pre)).
Proof.
  revert s. induction pre as [|io pre IH]; intros s.
  - cbn. now rewrite app_nil_r.
  - cbn [appended_all]. rewrite IH, requests_appended, <- app_assoc.
    f_equal.
Qed.

Lemma ioctl_calls_appended_all (pre : list chunk_io) (s : loop_state) :
  ioctl_calls (st_log (appended_all len pre s))
  = (ioctl_calls (st_log s) + length pre)%nat.
Proof.
  revert s. induction pre as [|io pre IH]; intros s; cbn [appended_all].
  - cbn. lia.
  - rewrite IH. unfold ioctl_calls. rewrite requests_appended, length_app. cbn. lia.
Qed.

Lemma progress_appended_all (pre : list chunk_io) (s : loop_state) :
  progress s (appended_all len pre s) pre.
Proof.
  unfold progress.
  rewrite ioctl_calls_appended_all, result_extents_appended_all,
    result_fiemap_appended_all, errors_appended_all.
  repeat split; reflexivity.
Qed.

(** The loop runs through a prefix of continuing answers. *)
Lemma loop_prefix (pre rest : list chunk_io)
      (s : loop_state) :
  acc_ok s -> fiemap_start s < len ->
  forallb (continuing len) pre = true -> wf_script pre = true ->
  fits (result_extents s + sum_mapped pre) ->
  fiemap_loop len junk (pre ++ rest) s
  = fiemap_loop len junk rest (appended_all len pre s).
Proof.
  revert s. induction pre as [|io pre IH]; intros s Hok Hlt Hc Hwf Hfits; [reflexivity|].
  apply forallb_cons_inv in Hc as [Hio Hc].
  apply forallb_cons_inv in Hwf as [Hwio Hwf].
  cbn [sum_mapped] in Hfits. pose proof (sum_mapped_nonneg pre) as Hpos.
  assert (Hfit1 : fits (result_extents s + mapped_of io))
    by (apply fits_le with (1 := Hfits); lia).
  cbn [app appended_all].
  destruct (loop_continues io (pre ++ rest) s Hok Hlt Hio Hwio Hfit1) as [_ ->].
  apply IH; try assumption.
  - apply acc_ok_appended; assumption.
  - now destruct (continuing_inv _ _ Hio) as (_ & _ & _ & _ & Hend).
  - unfold appended. cbn. unfold mapped_of in *. now rewrite <- Z.add_assoc.
Qed.

(** ** Scripts that end the loop *)

(** One iteration that ends the loop with success, in each of the three
    ways. *)
Lemma loop_last_iteration (fin : chunk_io)
      (rest : list chunk_io) (s : loop_state) :
  acc_ok s -> fiemap_start s < len -> wf_answer fin = true ->
  fits (result_extents s + mapped_of fin) ->
  stops_by_flag fin || stops_by_zero fin || stops_by_cursor len fin = true ->
  exists s', fiemap_loop len junk (fin :: rest) s = LoopDone s' /\
             progress s s' [fin] /\
             (forall others, owns s others -> owns s' others).
Proof.
  intros Hok Hlt Hwf Hfits Hstop.
  rewrite fiemap_loop_enter by assumption.
  apply orb_prop in Hstop as [Hstop | Hcur]; [apply orb_prop in Hstop as [Hflag | Hzero]|].
  - destruct (stops_by_flag_inv _ Hflag) as (Hio & Hne & Hmem & Hlast).
    rewrite (loop_body_appends fin s (extents_of fin));
      try assumption; [|now apply wf_answer_length].
    rewrite Hlast. eexists. split; [reflexivity|]. split.
    + apply progress_appended.
    + intros others. apply owns_appended.
  - destruct (stops_by_zero_inv _ Hzero) as (Hio & Hx).
    rewrite (loop_body_zero fin s Hio).
    eexists. split; [reflexivity|]. split.
    + apply progress_emit_stdout;
        [exact Hx | apply requests_dump_lines | apply errors_dump_lines].
    + intros others Hown. now apply owns_emit.
  - destruct (stops_by_cursor_inv _ _ Hcur) as (Hio & Hne & Hmem & Hlast & Hend).
    rewrite (loop_body_appends fin s (extents_of fin));
      try assumption; [|now apply wf_answer_length].
    rewrite Hlast, fiemap_loop_exit by exact Hend.
    eexists. split; [reflexivity|]. split.
    + apply progress_appended.
    + intros others. apply owns_appended.
Qed.

(** A run of continuing answers followed by one that stops the loop. *)
Lemma loop_stops (pre : list chunk_io) (fin : chunk_io)
      (rest : list chunk_io) (s : loop_state) :
  acc_ok s -> fiemap_start s < len ->
  forallb (continuing len) pre = true -> wf_script (pre ++ [fin]) = true ->
  fits (result_extents s + sum_mapped (pre ++ [fin])) ->
  stops_by_flag fin || stops_by_zero fin || stops_by_cursor len fin = true ->
  exists s', fiemap_loop len junk (pre ++ fin :: rest) s = LoopDone s' /\
             progress s s' (pre ++ [fin]) /\
             (forall others, owns s others -> owns s' others).
Proof.
  intros Hok Hlt Hc Hwf Hfits Hstop.
  apply wf_script_app in Hwf as [Hwpre Hwfin].
  apply forallb_cons_inv in Hwfin as [Hwfin _].
  rewrite sum_mapped_app in Hfits. cbn [sum_mapped] in Hfits.
  pose proof (mapped_of_nonneg fin) as Hpos.
  pose proof (sum_mapped_nonneg pre) as Hpos'.
  assert (Hfpre : fits (result_extents s + sum_mapped pre))
    by (apply fits_le with (1 := Hfits); lia).
  rewrite loop_prefix by assumption.
  destruct (loop_last_iteration fin rest (appended_all len pre s))
    as (s' & Hloop & Hprog & Hown).
  - now apply acc_ok_appended_all.
  - now apply cursor_appended_all.
  - exact Hwfin.
  - rewrite result_extents_appended_all.
    apply fits_le with (1 := Hfits). lia.
  - exact Hstop.
  - exists s'. split; [exact Hloop|]. split.
    + eapply progress_trans; [apply progress_appended_all | exact Hprog].
    + intros others Ho. apply Hown. now apply owns_appended_all.
Qed.
(** ** The requests of a run *)

(** ** Any script that keeps the interface's contract *)

(** Entered with a consistent accumulator, the loop never runs into
    undefined behaviour.  When it ends with success it has appended the
    extents of the answers it consumed, a prefix of the script, and written
    nothing to the error stream; when it fails it has written one message.
    Either way it still owns the result block. *)
Lemma fiemap_loop_sound (chunks : list chunk_io) :
  forall s : loop_state,
  acc_ok s -> wf_script chunks = true ->
  match fiemap_loop len junk chunks s with
  | LoopDone s' =>
      acc_ok s' /\ (forall others, owns s others -> owns s' others) /\
      exists k, (k <= length chunks)%nat /\ progress s s' (firstn k chunks)
  | LoopFail s' =>
      (forall others, owns s others -> owns s' others) /\
      exists m, errors (st_log s') = errors (st_log s) ++ [m]
  | LoopBlocked s' => errors (st_log s') = errors (st_log s)
  | LoopUndefined => False
  end.
Proof.
  induction chunks as [|io rest IH]; intros s Hok Hwf.
  - destruct (Z_lt_dec (fiemap_start s) len) as [Hlt | Hge].
    + rewrite fiemap_loop_blocked by assumption.
      unfold emit. cbn. rewrite errors_app. cbn. now rewrite app_nil_r.
    + rewrite fiemap_loop_exit by lia.
      split; [exact Hok|]. split; [auto|].
      exists 0%nat. split; [cbn; lia | apply progress_refl].
  - destruct (Z_lt_dec (fiemap_start s) len) as [Hlt | Hge].
    2:{ rewrite fiemap_loop_exit by lia.
        split; [exact Hok|]. split; [auto|].
        exists 0%nat. split; [cbn; lia | apply progress_refl]. }
    apply forallb_cons_inv in Hwf as [Hwio Hwf].
    rewrite fiemap_loop_enter by assumption.
    destruct (loop_body_cases io s Hok Hwio)
      as [(errno & Hio & ->) | [(Hio & ->) | [(x & Hio & Hne & Hwhy & ->) | (x & Hio & Hne & Hmem & Hfits & ->)]]].
    + split; [intros others Hown; now apply owns_emit|].
      exists (MsgIoctlFailed errno). unfold emit. cbn. now rewrite errors_app.
    + split; [now apply acc_ok_emit|].
      split; [intros others Hown; now apply owns_emit|].
      exists 1%nat. split; [cbn; lia|]. cbn [firstn].
      apply progress_emit_stdout.
      * unfold extents_of. now rewrite Hio.
      * apply requests_dump_lines.
      * apply errors_dump_lines.
    + split; [intros others Hown; now apply owns_emit|].
      exists MsgOutOfMemory. unfold emit. cbn. rewrite errors_app. cbn.
      now rewrite errors_app, errors_dump_lines.
    + assert (Hx : extents_of io = x) by (unfold extents_of; now rewrite Hio).
      assert (Hok' : acc_ok (appended len x s)) by now apply acc_ok_appended.
      assert (Hown' : forall others, owns s others -> owns (appended len x s) others)
        by (intros others; apply owns_appended).
      destruct (flagged_last (last_extent x)).
      * split; [exact Hok'|]. split; [exact Hown'|].
        exists 1%nat. split; [cbn; lia|]. cbn [firstn]. rewrite <- Hx.
        apply progress_appended.
      * specialize (IH (appended len x s) Hok' Hwf).
        destruct (fiemap_loop len junk rest (appended len x s)) as [s' | s' | s' |].
        -- destruct IH as (Hok'' & Hown'' & k & Hk & Hprog).
           split; [exact Hok''|]. split; [auto|].
           exists (S k). split; [cbn; lia|]. cbn [firstn].
           change (io :: firstn k rest) with ([io] ++ firstn k rest).
           eapply progress_trans; [|exact Hprog]. rewrite <- Hx.
           apply progress_appended.
        -- destruct IH as (Hown'' & m & Hm). split; [auto|].
           exists m. now rewrite Hm, errors_appended.
        -- now rewrite IH, errors_appended.
        -- exact IH.
Qed.

(** The states the loop passes through at its head. *)
Lemma iterates_progress (s s' : loop_state)
      (done : list chunk_io) :
  iterates len junk s done s' ->
  acc_ok s -> wf_script done = true ->
  acc_ok s' /\ progress s s' done.
Proof.
  induction 1 as [s | s s1 s2 io done Hlt Hbody Hrest IH]; intros Hok Hwf.
  - split; [exact Hok | apply progress_refl].
  - apply forallb_cons_inv in Hwf as [Hwio Hwf].
    destruct (loop_body_cases io s Hok Hwio)
      as [(errno & Hio & He) | [(Hio & He) | [(x & Hio & Hne & Hwhy & He) | (x & Hio & Hne & Hmem & Hfits & He)]]];
      rewrite He in Hbody; try discriminate.
    destruct (flagged_last (last_extent x)); [discriminate|].
    injection Hbody as <-.
    assert (Hx : extents_of io = x) by (unfold extents_of; now rewrite Hio).
    destruct IH as [Hok2 Hprog]; [now apply acc_ok_appended | exact Hwf |].
    split; [exact Hok2|].
    change (io :: done) with ([io] ++ done).
    eapply progress_trans; [|exact Hprog]. rewrite <- Hx. apply progress_appended.
Qed.

(** Entered with a consistent accumulator, the loop issues its requests
    from the cursor it is entered with and then from where each answer
    ended, always asking for [len] bytes; when it is entered below [len]
    it issues at least one. *)
Lemma fiemap_loop_requests (chunks : list chunk_io) :
  forall s : loop_state,
  acc_ok s -> wf_script chunks = true ->
  exists k,
    (fiemap_start s < len -> (0 < k)%nat) /\
    requests (exit_log (fiemap_loop len junk chunks s))
    = requests (st_log s) ++
      map (fun start => chunk_request start len)
          (firstn k (fiemap_start s :: map cursor_after chunks)).
Proof.
  induction chunks as [|io rest IH]; intros s Hok Hwf.
  - destruct (Z_lt_dec (fiemap_start s) len) as [Hlt | Hge].
    + rewrite fiemap_loop_blocked by assumption. exists 1%nat. split; [lia|].
      unfold emit. cbn. now rewrite requests_app.
    + rewrite fiemap_loop_exit by lia. exists 0%nat. split; [lia|].
      cbn. now rewrite app_nil_r.
  - destruct (Z_lt_dec (fiemap_start s) len) as [Hlt | Hge].
    2:{ rewrite fiemap_loop_exit by lia. exists 0%nat. split; [lia|].
        cbn. now rewrite app_nil_r. }
    apply forallb_cons_inv in Hwf as [Hwio Hwf].
    rewrite fiemap_loop_enter by assumption.
    destruct (loop_body_cases io s Hok Hwio)
      as [(errno & Hio & ->) | [(Hio & ->) | [(x & Hio & Hne & Hwhy & ->) | (x & Hio & Hne & Hmem & Hfits & ->)]]].
    + exists 1%nat. split; [lia|]. unfold emit. cbn. now rewrite requests_app.
    + exists 1%nat. split; [lia|]. unfold emit. cbn. rewrite requests_app. cbn.
      now rewrite requests_dump_lines.
    + exists 1%nat. split; [lia|]. unfold emit. cbn. rewrite requests_app. cbn.
      now rewrite requests_app, requests_dump_lines.
    + assert (Hx : extents_of io = x) by (unfold extents_of; now rewrite Hio).
      destruct (flagged_last (last_extent x)).
      * exists 1%nat. split; [lia|]. cbn [exit_log]. now rewrite requests_appended.
      * destruct (IH (appended len x s)) as (k & _ & Hk);
          [now apply acc_ok_appended | exact Hwf |].
        exists (S k). split; [lia|].
        rewrite Hk, requests_appended, <- app_assoc. f_equal.
        cbn [firstn map app]. f_equal. unfold cursor_after. now rewrite Hx.
Qed.

(** The loop cannot go on for ever: every iteration that goes round again
    has added at least one extent, and the result only grows while its
    size fits an [int].  So a run that has consumed the whole script and
    asks for more was given a script no longer than that limit allows. *)
Lemma fiemap_loop_bounded (chunks : list chunk_io) :
  forall s s' : loop_state,
  acc_ok s -> wf_script chunks = true ->
  fiemap_loop len junk chunks s = LoopBlocked s' ->
  fits (result_extents s + Z.of_nat (length chunks)).
Proof.
  induction chunks as [|io rest IH]; intros s s' Hok Hwf Hloop.
  - cbn. rewrite Z.add_0_r. apply Hok.
  - destruct (Z_lt_dec (fiemap_start s) len) as [Hlt | Hge].
    2:{ rewrite fiemap_loop_exit in Hloop by lia. discriminate. }
    apply forallb_cons_inv in Hwf as [Hwio Hwf].
    rewrite fiemap_loop_enter in Hloop by assumption.
    destruct (loop_body_cases io s Hok Hwio)
      as [(errno & Hio & He) | [(Hio & He) | [(x & Hio & Hne & Hwhy & He) | (x & Hio & Hne & Hmem & Hfits & He)]]];
      rewrite He in Hloop; try discriminate.
    destruct (flagged_last (last_extent x)); [discriminate|].
    apply IH in Hloop; [| now apply acc_ok_appended | exact Hwf].
    apply fits_le with (1 := Hloop). unfold appended. cbn [result_extents length].
    destruct x; [congruence | cbn [length]; lia].
Qed.

(** Every iteration but the last has added at least one extent to a
    result that is held below the [int] limit, so the calls of the loop
    are bounded by the room that is left. *)
Lemma fiemap_loop_calls (chunks : list chunk_io) :
  forall s : loop_state,
  acc_ok s -> wf_script chunks = true ->
  fits (result_extents s
        + Z.of_nat (ioctl_calls (exit_log (fiemap_loop len junk chunks s)))
        - Z.of_nat (ioctl_calls (st_log s)) - 1).
Proof.
  unfold ioctl_calls.
  induction chunks as [|io rest IH]; intros s Hok Hwf.
  - destruct (Z_lt_dec (fiemap_start s) len) as [Hlt | Hge].
    + rewrite fiemap_loop_blocked by assumption. unfold emit. cbn [exit_log st_log].
      rewrite requests_app, length_app. cbn [requests length].
      apply fits_le with (result_extents s); [apply Hok | lia].
    + rewrite fiemap_loop_exit by lia. cbn [exit_log].
      apply fits_le with (result_extents s); [apply Hok | lia].
  - destruct (Z_lt_dec (fiemap_start s) len) as [Hlt | Hge].
    2:{ rewrite fiemap_loop_exit by lia. cbn [exit_log].
        apply fits_le with (result_extents s); [apply Hok | lia]. }
    apply forallb_cons_inv in Hwf as [Hwio Hwf].
    rewrite fiemap_loop_enter by assumption.
    destruct (loop_body_cases io s Hok Hwio)
      as [(errno & Hio & ->) | [(Hio & ->) | [(x & Hio & Hne & Hwhy & ->) | (x & Hio & Hne & Hmem & Hfits & ->)]]].
    + unfold emit. cbn [exit_log st_log]. rewrite requests_app, length_app.
      cbn [requests length]. apply fits_le with (result_extents s); [apply Hok | lia].
    + unfold emit. cbn [exit_log st_log]. rewrite requests_app. cbn [requests].
      rewrite requests_dump_lines, length_app. cbn [length].
      apply fits_le with (result_extents s); [apply Hok | lia].
    + unfold emit. cbn [exit_log st_log]. rewrite requests_app. cbn [requests].
      rewrite requests_app, requests_dump_lines, length_app. cbn [requests app length].
      apply fits_le with (result_extents s); [apply Hok | lia].
    + assert (Hok' : acc_ok (appended len x s)) by now apply acc_ok_appended.
      destruct (flagged_last (last_extent x)).
      * cbn [exit_log]. rewrite requests_appended, length_app. cbn [length].
        apply fits_le with (result_extents s); [apply Hok | lia].
      * specialize (IH (appended len x s) Hok' Hwf).
        rewrite requests_appended, length_app in IH. cbn [length] in IH.
        apply fits_le with (1 := IH). unfold appended. cbn [result_extents].
        destruct x; [congruence | cbn [length]; lia].
Qed.

(** ** Any script at all *)

Lemma fiemap_loop_errors (chunks : list chunk_io) :
  forall s : loop_state,
  match fiemap_loop len junk chunks s with
  | LoopDone s' | LoopBlocked s' => errors (st_log s') = errors (st_log s)
  | LoopFail s' =>
      exists m, errors (st_log s') = errors (st_log s) ++ [m] /\
                (m = MsgOutOfMemory \/ exists errno, m = MsgIoctlFailed errno)
  | LoopUndefined => True
  end.
Proof.
  induction chunks as [|io rest IH]; intros s; cbn [fiemap_loop].
  - destruct (fiemap_start s <? len); [|reflexivity].
    unfold emit. cbn. rewrite errors_app. cbn. now rewrite app_nil_r.
  - destruct (fiemap_start s <? len); [|reflexivity].
    pose proof (loop_body_errors io s) as Hb.
    destruct (loop_body len junk io s) as [s1 | s1 | s1 |]; try assumption.
    specialize (IH s1).
    destruct (fiemap_loop len junk rest s1) as [s' | s' | s' |];
      try (now rewrite IH, Hb); [|exact I].
    destruct IH as (m & Hm & Hkind). exists m. split; [|exact Hkind].
    now rewrite Hm, Hb.
Qed.

Lemma fiemap_loop_file_lines (chunks : list chunk_io) :
  forall s : loop_state,
  file_lines (exit_log (fiemap_loop len junk chunks s)) = file_lines (st_log s) \/
  fiemap_loop len junk chunks s = LoopUndefined.
Proof.
  induction chunks as [|io rest IH]; intros s; cbn [fiemap_loop].
  - destruct (fiemap_start s <? len); [|now left].
    left. unfold emit. cbn. rewrite file_lines_app. cbn. now rewrite app_nil_r.
  - destruct (fiemap_start s <? len); [|now left].
    pose proof (loop_body_file_lines io s) as Hb.
    destruct (loop_body len junk io s) as [s1 | s1 | s1 |];
      [ | now left | now left | now right ].
    destruct (IH s1) as [Hl | Hu]; [left; now rewrite Hl | now right].
Qed.

Lemma fiemap_loop_same_data (chunks : list chunk_io) :
  forall s1 s2 : loop_state,
  same_data s1 s2 ->
  exit_same (fiemap_loop len junk chunks s1) (fiemap_loop len junk chunks s2).
Proof.
  induction chunks as [|io rest IH]; intros s1 s2 Hsame; cbn [fiemap_loop];
    pose proof Hsame as (Hstart & Hcount & Hres & Hlog); rewrite Hstart;
    destruct (fiemap_start s2 <? len); try exact Hsame.
  - unfold emit, same_data. cbn. now rewrite Hlog, Hcount, Hres.
  - pose proof (loop_body_same_data io s1 s2 Hsame) as Hb.
    destruct (loop_body len junk io s1), (loop_body len junk io s2);
      cbn in Hb; try contradiction; try exact Hb.
    now apply IH.
Qed.

End Loop.


(** ** [read_fiemap] (fiemap.c:76-185) *)

Lemma read_fiemap_enter (h : heap) (w : world) (st_size : Z) :
  w_fstat w = FstatOk st_size -> w_malloc_fiemap w = true -> w_malloc_result w = true ->
  read_fiemap h w
  = match fiemap_loop (to_u64 st_size) (w_junk w) (w_chunks w)
                      (initial_state w (S (next h)) (entry_heap h)) with
    | LoopDone s =>
        Returned (Some (result_ptr s,
                        set_mapped_extents (result_fiemap s) (result_extents s)))
                 (free (next h) (st_heap s))
                 (st_log s ++ [EvStdout (OutDone (result_extents s))])
    | LoopFail s =>
        Returned None (fail_cleanup (Some (result_ptr s)) (Some (next h)) (st_heap s))
                 (st_log s)
    | LoopBlocked s => Blocked (st_log s)
    | LoopUndefined => Undefined
    end.
Proof.
  intros Hs Hm1 Hm2. unfold read_fiemap, malloc. rewrite Hs, Hm1, Hm2. reflexivity.
Qed.

Lemma acc_ok_initial (w : world) (p : ptr) (h : heap) : acc_ok (initial_state w p h).
Proof. unfold acc_ok, initial_state, fits. cbn. repeat split; lia || discriminate. Qed.

Lemma owns_initial (w : world) (h : heap) :
  heap_wf h ->
  owns (initial_state w (S (next h)) (entry_heap h)) (next h :: live h).
Proof.
  intros Hwf. unfold owns, initial_state, entry_heap, heap_wf in *. cbn.
  rewrite Forall_forall in Hwf.
  repeat split.
  - constructor; [lia|]. constructor; [lia|].
    apply Forall_forall. intros p Hp. specialize (Hwf _ Hp). lia.
  - intros [Heq | Hin]; [lia|]. specialize (Hwf _ Hin). lia.
Qed.

(** What [read_fiemap] returns when the loop ends with success. *)
Lemma read_fiemap_done (h : heap) (w : world) (st_size : Z) (s : loop_state)
      (done : list chunk_io) :
  w_fstat w = FstatOk st_size -> w_malloc_fiemap w = true -> w_malloc_result w = true ->
  fiemap_loop (to_u64 st_size) (w_junk w) (w_chunks w)
              (initial_state w (S (next h)) (entry_heap h)) = LoopDone s ->
  progress (initial_state w (S (next h)) (entry_heap h)) s done ->
  exists p r h' log,
    read_fiemap h w = Returned (Some (p, r)) h' log /\
    ioctl_calls log = length done /\
    fm_mapped_extents r = sum_mapped done /\
    fm_extents r = all_extents done /\
    errors log = [].
Proof.
  intros Hs Hm1 Hm2 Hloop (Hcalls & Hcount & Hres & Herr).
  rewrite (read_fiemap_enter h w st_size Hs Hm1 Hm2), Hloop.
  eexists _, _, _, _. split; [reflexivity|].
  unfold ioctl_calls in *. rewrite requests_app, errors_app, length_app.
  cbn in *. rewrite Hcalls, Hcount, Hres, Herr. cbn.
  repeat split; lia.
Qed.

Lemma requests_read_fiemap (h : heap) (w : world) (st_size : Z) :
  w_fstat w = FstatOk st_size -> w_malloc_fiemap w = true -> w_malloc_result w = true ->
  requests (log_of (read_fiemap h w))
  = requests (exit_log (fiemap_loop (to_u64 st_size) (w_junk w) (w_chunks w)
                                    (initial_state w (S (next h)) (entry_heap h)))).
Proof.
  intros Hs Hm1 Hm2. rewrite (read_fiemap_enter h w st_size Hs Hm1 Hm2).
  destruct (fiemap_loop _ _ _ _); cbn; try reflexivity.
  rewrite requests_app. cbn. now rewrite app_nil_r.
Qed.

(** Every return of [NULL] comes with exactly one message, and a return
    of the result or a blocked query with none. *)
Lemma read_fiemap_errors (h : heap) (w : world) :
  match read_fiemap h w with
  | Returned (Some _) _ log | Blocked log => errors log = []
  | Returned None _ log =>
      (exists errno, w_fstat w = FstatFail errno /\ errors log = [MsgCannotStat errno]) \/
      (exists st_size m, w_fstat w = FstatOk st_size /\ errors log = [m] /\
                         (m = MsgOutOfMemory \/ exists errno, m = MsgIoctlFailed errno))
  | Undefined => True
  end.
Proof.
  unfold read_fiemap. destruct (w_fstat w) as [errno | st_size].
  - left. now exists errno.
  - unfold malloc. destruct (w_malloc_fiemap w).
    2:{ right. exists st_size, MsgOutOfMemory. repeat split. now left. }
    destruct (w_malloc_result w).
    2:{ right. exists st_size, MsgOutOfMemory. repeat split. now left. }
    match goal with |- context [fiemap_loop ?l ?j ?c ?s] =>
      pose proof (fiemap_loop_errors l j c s) as Hl;
      destruct (fiemap_loop l j c s) as [s' | s' | s' |] end.
    + rewrite errors_app, Hl. reflexivity.
    + destruct Hl as (m & Hm & Hkind). right. exists st_size, m. now repeat split.
    + exact Hl.
    + exact I.
Qed.
(** ** The heap does not steer a run *)

(** [read_fiemap] leaves the "File ..." line to its caller. *)
Lemma read_fiemap_file_lines (h : heap) (w : world) :
  file_lines (log_of (read_fiemap h w)) = [].
Proof.
  unfold read_fiemap, malloc. destruct (w_fstat w) as [errno | st_size]; [reflexivity|].
  destruct (w_malloc_fiemap w); [|reflexivity].
  destruct (w_malloc_result w); [|reflexivity].
  match goal with |- context [fiemap_loop ?l ?j ?c ?s] =>
    destruct (fiemap_loop_file_lines l j c s) as [Hl | ->]; [|reflexivity];
    destruct (fiemap_loop l j c s) as [s' | s' | s' |] end;
    cbn in *; rewrite ?file_lines_app, ?Hl; reflexivity.
Qed.

(** Addresses apart, a run is the same in every heap. *)
Lemma read_fiemap_heap_independent (h1 h2 : heap) (w : world) :
  observe (read_fiemap h1 w) = observe (read_fiemap h2 w).
Proof.
  unfold read_fiemap, malloc. destruct (w_fstat w) as [errno | st_size]; [reflexivity|].
  destruct (w_malloc_fiemap w); [|reflexivity].
  destruct (w_malloc_result w); [|reflexivity].
  match goal with |- observe (match fiemap_loop ?l ?j ?c ?a with _ => _ end)
                     = observe (match fiemap_loop _ _ _ ?b with _ => _ end) =>
    assert (Hsame : same_data a b) by (unfold same_data; auto);
    pose proof (fiemap_loop_same_data l j c a b Hsame) as He;
    destruct (fiemap_loop l j c a) as [x | x | x |],
             (fiemap_loop l j c b) as [y | y | y |] end;
    cbn in He; try contradiction; try reflexivity;
    destruct He as (Hstart & Hcount & Hres & Hlog); cbn;
    now rewrite ?Hcount, ?Hres, ?Hlog.
Qed.

(** Under the interface's contract a run never goes undefined; a result
    holds the extents of the answers the run consumed, one call each; and
    at every return the live blocks are those at entry, plus the result
    block when it is returned. *)
Lemma read_fiemap_sound (h : heap) (w : world) :
  wf_script (w_chunks w) = true ->
  match read_fiemap h w with
  | Returned (Some (p, r)) h' log =>
      (exists k, (k <= length (w_chunks w))%nat /\
                 ioctl_calls log = k /\
                 fm_mapped_extents r = sum_mapped (firstn k (w_chunks w)) /\
                 fm_extents r = all_extents (firstn k (w_chunks w))) /\
      (heap_wf h -> live h' = p :: live h)
  | Returned None h' log => heap_wf h -> live h' = live h
  | Blocked log => True
  | Undefined => False
  end.
Proof.
  intros Hwf.
  destruct (w_fstat w) as [errno | st_size] eqn:Hs.
  { unfold read_fiemap. rewrite Hs. auto. }
  destruct (w_malloc_fiemap w) eqn:Hm1.
  2:{ unfold read_fiemap, malloc. rewrite Hs, Hm1. auto. }
  destruct (w_malloc_result w) eqn:Hm2.
  2:{ unfold read_fiemap, malloc. rewrite Hs, Hm1, Hm2.
      intros Hh. unfold fail_cleanup, free. cbn [live next].
      apply remove_head_eq. now apply heap_wf_fresh. }
  rewrite (read_fiemap_enter h w st_size Hs Hm1 Hm2).
  set (s0 := initial_state w (S (next h)) (entry_heap h)).
  pose proof (fiemap_loop_sound (to_u64 st_size) (w_junk w) (w_chunks w) s0
                                (acc_ok_initial _ _ _) Hwf) as Hl.
  destruct (fiemap_loop _ _ _ s0) as [s' | s' | s' |]; [| | exact I | exact Hl].
  - destruct Hl as (Hok & Hown & k & Hk & Hcalls & Hcount & Hres & Herr).
    split.
    + exists k. unfold ioctl_calls in *. rewrite requests_app, length_app.
      cbn in *. rewrite Hcalls, Hcount, Hres, length_firstn. cbn.
      repeat split; lia.
    + intros Hh. apply live_after_done; [|now apply heap_wf_fresh].
      apply Hown. now apply owns_initial.
  - destruct Hl as (Hown & _). intros Hh.
    apply live_after_fail; [|now apply heap_wf_fresh].
    apply Hown. now apply owns_initial.
Qed.

(** ** [main] (fiemap.c:187-212) *)

(** The files after a failing one are still processed: with every query
    answered, the loop of [main] writes for each argument in turn what the
    argument alone gives, and exits with success. *)
Lemma main_loop_exits (args : list (String.string * open_result)) :
  forall (h : heap) (log : list event),
  forallb file_returns args = true ->
  exists h', main_loop args h log = Exited EXIT_SUCCESS h' (log ++ flat_map file_events args).
Proof.
  induction args as [|[name [errno | w]] args IH]; intros h log Hret.
  - exists h. cbn. now rewrite app_nil_r.
  - apply forallb_cons_inv in Hret as [_ Hret].
    destruct (IH h (log ++ [EvStderr (MsgCannotOpen name errno)]) Hret) as (h' & Hm).
    exists h'. cbn [main_loop flat_map file_events]. rewrite Hm.
    now rewrite <- app_assoc.
  - apply forallb_cons_inv in Hret as [Hw Hret]. cbn [file_returns] in Hw.
    cbn [main_loop flat_map file_events].
    pose proof (read_fiemap_heap_independent h empty_heap w) as Hobs.
    destruct (read_fiemap empty_heap w) as [[[p0 r0]|] h0 l0 | l0 |];
      try discriminate Hw;
      destruct (read_fiemap h w) as [[[p r]|] h1 l | l |]; try discriminate Hobs;
      cbn in Hobs; inversion Hobs; subst; cbn [observe].
    + destruct (IH h1 (log ++ l0 ++ dump_fiemap r0 name) Hret) as (h' & Hm).
      exists h'. rewrite Hm. now rewrite <- !app_assoc.
    + destruct (IH h1 (log ++ l0) Hret) as (h' & Hm).
      exists h'. rewrite Hm. now rewrite <- !app_assoc.
Qed.

(** What [main] writes for one argument: a message and no line when the
    file cannot be opened or its query fails, the line and no message
    otherwise. *)
Lemma file_events_kind (arg : String.string * open_result) :
  file_returns arg = true ->
  if file_fails arg then reported_and_skipped arg else processed arg.
Proof.
  destruct arg as [name [errno | w]]; unfold reported_and_skipped, processed;
    cbn [file_fails file_returns file_events fst].
  - intros _. split; [discriminate | reflexivity].
  - intros Hret.
    pose proof (read_fiemap_errors empty_heap w) as He.
    pose proof (read_fiemap_file_lines empty_heap w) as Hf.
    destruct (read_fiemap empty_heap w) as [[[p r]|] h' l | l |];
      try discriminate Hret; cbn [observe log_of] in *.
    + split.
      * now rewrite errors_app, He.
      * exists (fm_mapped_extents r). now rewrite file_lines_app, Hf.
    + split; [|exact Hf].
      destruct He as [(e & _ & ->) | (sz & m & _ & -> & _)]; discriminate.
Qed.

(** * The claims *)

(** C1.  The driver does not stop because a chunk holds fewer extents than
    it has room for.  Whatever the number of extents (1 to 1024) in each of
    the answers [pre], as long as none of them has its last extent flagged
    as the file's last or ending at or past the file size, the driver goes
    on to the next query; it stops at the first answer [fin] whose last
    extent carries the flag, that maps no extent, or that moves the cursor
    to the file size or past it.  It has then issued exactly one interface
    call per answer and returns all their extents, in order, counted in
    [fm_mapped_extents].  For answers of 1024, 1024 and 5 extents that
    makes 3 calls and 2053 extents. *)
Theorem multi_chunk_retrieval (h : heap) (w : world) (st_size : Z)
        (pre : list chunk_io) (fin : chunk_io) (rest : list chunk_io) :
  w_fstat w = FstatOk st_size ->
  w_malloc_fiemap w = true -> w_malloc_result w = true ->
  w_chunks w = pre ++ fin :: rest ->
  0 < to_u64 st_size ->
  wf_script (pre ++ [fin]) = true ->
  forallb (continuing (to_u64 st_size)) pre = true ->
  stops_by_flag fin || stops_by_zero fin || stops_by_cursor (to_u64 st_size) fin = true ->
  fits (sum_mapped (pre ++ [fin])) ->
  exists p r h' log,
    read_fiemap h w = Returned (Some (p, r)) h' log /\
    ioctl_calls log = S (length pre) /\
    fm_mapped_extents r = sum_mapped (pre ++ [fin]) /\
    fm_extents r = all_extents (pre ++ [fin]).
Proof.
  intros Hs Hm1 Hm2 Hchunks Hsize Hwf Hc Hstop Hfits.
  destruct (loop_stops (to_u64 st_size) (w_junk w) pre fin rest
                       (initial_state w (S (next h)) (entry_heap h)))
    as (s' & Hloop & Hprog & _); try assumption; try apply acc_ok_initial.
  rewrite <- Hchunks in Hloop.
  destruct (read_fiemap_done h w st_size s' (pre ++ [fin]) Hs Hm1 Hm2 Hloop Hprog)
    as (p & r & h' & log & Hret & Hcalls & Hcount & Hx & _).
  exists p, r, h', log. rewrite length_app in Hcalls. cbn in Hcalls.
  repeat split; try assumption. lia.
Qed.

(** The scenario of C1: 1024, 1024 and 5 extents, the fifth flagged. *)
Lemma multi_chunk_retrieval_scenario :
  exists p r h' log,
    read_fiemap empty_heap three_chunk_file = Returned (Some (p, r)) h' log /\
    ioctl_calls log = 3%nat /\
    fm_mapped_extents r = 2053 /\
    fm_extents r = blocks 0 1024 ++ blocks 1024 1024 ++ blocks_last 2048 5.
Proof.
  pose proof (multi_chunk_retrieval empty_heap three_chunk_file (2053 * 4096)
                [answer (blocks 0 1024); answer (blocks 1024 1024)]
                (answer (blocks_last 2048 5)) []) as H.
  destruct H as (p & r & h' & log & Hret & Hcalls & Hcount & Hx);
    try (vm_compute; reflexivity).
  - unfold fits. vm_compute. discriminate.
  - exists p, r, h', log. repeat split; assumption.
Defined.

(** C2.  When a query call fails, [read_fiemap] returns [NULL]: no extent
    sequence at all, not the extents of the calls before.  The failing call
    is reached through the continuing answers [pre]; the extents
    accumulated from them sit in the result block, which is freed together
    with the chunk block before the return, so that the live blocks are
    those at entry.  The failure is reported on the error stream. *)
Theorem query_failure_returns_null (h : heap) (w : world) (st_size : Z)
        (pre : list chunk_io) (fin : chunk_io) (rest : list chunk_io) (errno : Z) :
  heap_wf h ->
  w_fstat w = FstatOk st_size ->
  w_malloc_fiemap w = true -> w_malloc_result w = true ->
  w_chunks w = pre ++ fin :: rest ->
  io_ioctl fin = IoctlFail errno ->
  0 < to_u64 st_size ->
  wf_script pre = true ->
  forallb (continuing (to_u64 st_size)) pre = true ->
  fits (sum_mapped pre) ->
  exists h' log,
    read_fiemap h w = Returned None h' log /\
    live h' = live h /\
    ioctl_calls log = S (length pre) /\
    errors log = [MsgIoctlFailed errno].
Proof.
  intros Hh Hs Hm1 Hm2 Hchunks Hfail Hsize Hwf Hc Hfits.
  set (s0 := initial_state w (S (next h)) (entry_heap h)).
  assert (Hok0 : acc_ok s0) by apply acc_ok_initial.
  assert (Hown0 : owns s0 (next h :: live h)) by now apply owns_initial.
  rewrite (read_fiemap_enter h w st_size Hs Hm1 Hm2), Hchunks. fold s0.
  rewrite loop_prefix by assumption.
  set (s1 := appended_all (to_u64 st_size) pre s0).
  assert (Hlt1 : fiemap_start s1 < to_u64 st_size) by now apply cursor_appended_all.
  rewrite fiemap_loop_enter by assumption.
  rewrite (loop_body_ioctl_fails _ _ _ _ errno Hfail).
  eexists _, _. split; [reflexivity|].
  split; [|split].
  - apply (live_after_fail (emit _ s1)).
    + apply owns_emit. now apply owns_appended_all.
    + now apply heap_wf_fresh.
  - unfold emit, ioctl_calls. cbn [st_log]. rewrite requests_app, length_app.
    fold (ioctl_calls (st_log s1)). unfold s1.
    rewrite ioctl_calls_appended_all. cbn. lia.
  - unfold emit. cbn [st_log]. rewrite errors_app. unfold s1.
    now rewrite errors_appended_all.
Qed.

(** The scenario of C2: the second call of a multi-chunk sequence fails;
    the 1024 extents of the first call are not returned. *)
Lemma query_failure_on_second_call :
  exists h' log,
    read_fiemap empty_heap failing_file = Returned None h' log /\
    live h' = [] /\
    ioctl_calls log = 2%nat /\
    errors log = [MsgIoctlFailed 5].
Proof.
  apply (query_failure_returns_null empty_heap failing_file (2053 * 4096)
           [answer (blocks 0 1024)] (mk_io (IoctlFail 5) true)
           [answer (blocks_last 2048 5)] 5);
    try (vm_compute; reflexivity).
  - constructor.
  - unfold fits. vm_compute. discriminate.
Defined.

(** C3.  The count of the result set is the sum of the mapped-extent
    counts of the completed chunks: in every state the loop passes through
    at its head, after the iterations answered by the first [k] answers of
    the script, where the result block also holds exactly that many
    extents; and in the result [read_fiemap] returns, for the answers of
    the calls it issued. *)
Theorem extent_count_invariant (h : heap) (w : world) (len : Z)
        (result : ptr) (h0 : heap) (k : nat) (s : loop_state) :
  wf_script (w_chunks w) = true ->
  iterates len (w_junk w) (initial_state w result h0) (firstn k (w_chunks w)) s ->
  (result_extents s = sum_mapped (firstn k (w_chunks w)) /\
   length (fm_extents (result_fiemap s)) = Z.to_nat (result_extents s)) /\
  match read_fiemap h w with
  | Returned (Some (_, r)) _ log =>
      fm_mapped_extents r = sum_mapped (firstn (ioctl_calls log) (w_chunks w)) /\
      length (fm_extents r) = Z.to_nat (fm_mapped_extents r)
  | _ => True
  end.
Proof.
  intros Hwf Hit. split.
  - assert (Hwk : wf_script (firstn k (w_chunks w)) = true).
    { rewrite <- (firstn_skipn k (w_chunks w)) in Hwf.
      now apply wf_script_app in Hwf as [Hwf _]. }
    destruct (iterates_progress _ _ _ _ _ Hit (acc_ok_initial _ _ _) Hwk)
      as [(_ & _ & Hlen) (_ & Hcount & _)].
    split; [exact Hcount | exact Hlen].
  - pose proof (read_fiemap_sound h w Hwf) as Hsound.
    destruct (read_fiemap h w) as [[[p r]|] h' log | log |]; try exact I.
    destruct Hsound as [(n & Hn & Hcalls & Hcount & Hx) _].
    rewrite Hcalls. split; [exact Hcount|].
    rewrite Hx, Hcount, sum_mapped_length. now rewrite Nat2Z.id.
Qed.

(** An instance of C3: the eight-block file, after the first iteration and
    in the result. *)
Lemma extent_count_invariant_example :
  (result_extents
     (appended (8 * 4096) (blocks 0 4) (initial_state two_chunk_file 2%nat (entry_heap empty_heap)))
   = 4 /\
   length (fm_extents (result_fiemap
     (appended (8 * 4096) (blocks 0 4) (initial_state two_chunk_file 2%nat (entry_heap empty_heap)))))
   = 4%nat) /\
  option_map fm_mapped_extents (result_of (read_fiemap empty_heap two_chunk_file)) = Some 8.
Proof.
  pose proof (extent_count_invariant empty_heap two_chunk_file (8 * 4096) 2%nat
                (entry_heap empty_heap) 1%nat
                (appended (8 * 4096) (blocks 0 4)
                          (initial_state two_chunk_file 2%nat (entry_heap empty_heap)))) as H.
  destruct H as [Hloop Hfinal].
  - vm_compute. reflexivity.
  - eapply iterates_step; [reflexivity | vm_compute; reflexivity | apply iterates_nil].
  - split; [exact Hloop | vm_compute; reflexivity].
Defined.

(** C4.  Appending chunk after chunk to the accumulator, each chunk of
    whatever size the chunk block can hold (0 to 1024 extents), leaves in
    the result block what it held before, unchanged and in place, followed
    by the chunks' extents in the order of the appends: starting from the
    empty accumulator that is the concatenation of the chunks.  The count
    grows by their total.  (The result must stay below the size an [int]
    can express, or the append fails for lack of memory.) *)
Theorem appends_concatenate (junk : fiemap_extent) (chunks : list (list fiemap_extent))
        (s : loop_state) :
  acc_ok s ->
  wf_chunks chunks = true ->
  fits (result_extents s + Z.of_nat (length (concat chunks))) ->
  exists s',
    append_all junk chunks s = Appended s' /\
    fm_extents (result_fiemap s') = fm_extents (result_fiemap s) ++ concat chunks /\
    result_extents s' = result_extents s + Z.of_nat (length (concat chunks)).
Proof.
  revert s. induction chunks as [|extents chunks IH]; intros s Hok Hwf Hfits.
  - exists s. cbn. rewrite app_nil_r. repeat split; lia.
  - apply forallb_cons_inv in Hwf as [Hwx Hwf]. apply Nat.leb_le in Hwx.
    cbn [concat] in *. rewrite length_app in Hfits.
    assert (Hfit1 : fits (result_extents s + Z.of_nat (length extents)))
      by (apply fits_le with (1 := Hfits); lia).
    cbn [append_all].
    rewrite (append_chunk_ok junk (chunk_of extents) s extents
               (skipn (length extents) (fm_extents (chunk_request 0 0))) Hok
               (ioctl_fill_mapped _ _) (chunk_of_extents _ Hwx) Hfit1).
    match goal with |- context [append_all junk chunks ?s1] =>
      destruct (IH s1) as (s' & Happ & Hx & Hcount) end.
    + destruct Hok as (Hre & _ & Hlen). unfold acc_ok. cbn.
      repeat split; [lia | exact Hfit1 | rewrite length_app, Hlen; lia].
    + exact Hwf.
    + cbn. apply fits_le with (1 := Hfits). lia.
    + exists s'. split; [exact Happ|]. cbn in Hx, Hcount.
      rewrite Hx, Hcount, <- app_assoc, length_app. split; [reflexivity | lia].
Qed.

(** An instance of C4: chunks of 1, 1024 and 3 extents appended to the
    empty accumulator. *)
Lemma appends_concatenate_example :
  exists s',
    append_all junk_extent [blocks 0 1; blocks 1 1024; blocks 1025 3]
               (initial_state three_chunk_file 2%nat (entry_heap empty_heap)) = Appended s' /\
    fm_extents (result_fiemap s') = blocks 0 1028 /\
    result_extents s' = 1028.
Proof.
  apply (appends_concatenate junk_extent [blocks 0 1; blocks 1 1024; blocks 1025 3]
           (initial_state three_chunk_file 2%nat (entry_heap empty_heap))).
  - apply acc_ok_initial.
  - vm_compute. reflexivity.
  - unfold fits. vm_compute. discriminate.
Defined.

(** C5, as the code has it.  Every chunk handed to the interface is
    zeroed but for four fields: [fm_start] is the cursor (0 for the first
    call, then the end of the last extent of the answer before),
    [fm_length] is the size of the file, [fm_extent_count] is 1024 and
    [fm_flags] is the sync flag.  [fm_length] is the size of the whole file
    in every iteration; it is not reduced as the cursor advances. *)
Theorem requests_ask_for_file_size (h : heap) (w : world) (st_size : Z) :
  w_fstat w = FstatOk st_size ->
  wf_script (w_chunks w) = true ->
  Forall (fun req =>
            fm_length req = to_u64 st_size /\
            fm_flags req = FIEMAP_FLAG_SYNC /\
            fm_extent_count req = MAX_EXTENTS /\
            fm_mapped_extents req = 0 /\
            fm_reserved req = 0 /\
            fm_extents req = repeat zero_extent (Z.to_nat MAX_EXTENTS))
         (requests (log_of (read_fiemap h w))) /\
  map fm_start (requests (log_of (read_fiemap h w)))
  = firstn (ioctl_calls (log_of (read_fiemap h w))) (0 :: map cursor_after (w_chunks w)).
Proof.
  intros Hs Hwf.
  destruct (w_malloc_fiemap w) eqn:Hm1.
  2:{ unfold read_fiemap, malloc. rewrite Hs, Hm1. cbn. split; [constructor | reflexivity]. }
  destruct (w_malloc_result w) eqn:Hm2.
  2:{ unfold read_fiemap, malloc. rewrite Hs, Hm1, Hm2. cbn.
      split; [constructor | reflexivity]. }
  unfold ioctl_calls. rewrite (requests_read_fiemap h w st_size Hs Hm1 Hm2).
  destruct (fiemap_loop_requests (to_u64 st_size) (w_junk w) (w_chunks w)
              (initial_state w (S (next h)) (entry_heap h)) (acc_ok_initial _ _ _) Hwf)
    as (k & _ & ->).
  cbn [initial_state st_log requests app fiemap_start]. split.
  - apply Forall_forall. intros req Hin. apply in_map_iff in Hin as (start & <- & _).
    repeat split.
  - rewrite map_map, length_map. cbn [chunk_request fm_start].
    rewrite map_id. symmetry. apply firstn_own_length.
Qed.

(** An instance of C5 (as the code has it): the eight-block file. *)
Lemma requests_ask_for_file_size_example :
  Forall (fun req =>
            fm_length req = 32768 /\
            fm_flags req = FIEMAP_FLAG_SYNC /\
            fm_extent_count req = MAX_EXTENTS /\
            fm_mapped_extents req = 0 /\
            fm_reserved req = 0 /\
            fm_extents req = repeat zero_extent (Z.to_nat MAX_EXTENTS))
         (requests (log_of (read_fiemap empty_heap two_chunk_file))) /\
  map fm_start (requests (log_of (read_fiemap empty_heap two_chunk_file)))
  = firstn (ioctl_calls (log_of (read_fiemap empty_heap two_chunk_file)))
           (0 :: map cursor_after (w_chunks two_chunk_file)).
Proof.
  apply (requests_ask_for_file_size empty_heap two_chunk_file (8 * 4096));
    vm_compute; reflexivity.
Defined.

(** C5 as stated fails: in the second iteration on the eight-block file
    the cursor is at 16384 and 16384 bytes remain unscanned, but the chunk
    asks for 32768 bytes, the size of the file. *)
Lemma second_request_exceeds_remaining_span :
  exists req,
    nth_error (requests (log_of (read_fiemap empty_heap two_chunk_file))) 1 = Some req /\
    fm_start req = 16384 /\
    fm_length req = 32768 /\
    fm_length req <> 8 * 4096 - fm_start req.
Proof.
  eexists. split; [vm_compute; reflexivity|].
  cbn. repeat split. discriminate.
Qed.

(** C6, as the code has it.  The loop does not compare the new cursor
    with the old one.  After an answer [io] with extents, none flagged as
    last, that leaves the cursor where it was or before, but still below
    the file size, the driver has appended the extents like any others and
    issues the next query, from that cursor: the run does not fail there,
    and a result it returns holds the extents of [io] behind those of the
    answers before.  The driver still cannot loop for ever: every answer
    that sends it round again has added an extent to a result that holds
    at most 38,347,922 while its size fits an [int], so the run makes no
    more than 38,347,923 queries, whatever the answers that follow; and a
    run that has used up all the answers of the script and waits for
    another was given a script no longer than the result can hold
    extents. *)
Theorem non_advancing_cursor_queried_again (h : heap) (w : world) (st_size : Z)
        (pre : list chunk_io) (io : chunk_io) (rest : list chunk_io) :
  w_fstat w = FstatOk st_size ->
  w_malloc_fiemap w = true -> w_malloc_result w = true ->
  w_chunks w = pre ++ io :: rest ->
  0 < to_u64 st_size ->
  wf_script (w_chunks w) = true ->
  forallb (continuing (to_u64 st_size)) (pre ++ [io]) = true ->
  fits (sum_mapped (pre ++ [io])) ->
  cursor_after io <= last (map cursor_after pre) 0 ->
  nth_error (requests (log_of (read_fiemap h w))) (S (length pre))
  = Some (chunk_request (cursor_after io) (to_u64 st_size)) /\
  match read_fiemap h w with
  | Returned (Some (_, r)) _ _ =>
      exists more, fm_extents r = all_extents (pre ++ [io]) ++ more
  | Returned None _ _ => True
  | Blocked _ => fits (Z.of_nat (length (w_chunks w)))
  | Undefined => False
  end /\
  Z.of_nat (ioctl_calls (log_of (read_fiemap h w))) <= 38347923.
Proof.
  intros Hs Hm1 Hm2 Hchunks Hsize Hwf Hc Hfits _.
  set (s0 := initial_state w (S (next h)) (entry_heap h)).
  assert (Hok0 : acc_ok s0) by apply acc_ok_initial.
  apply (proj1 (and_assoc _ _ _)). split.
  2:{ unfold ioctl_calls. rewrite (requests_read_fiemap h w st_size Hs Hm1 Hm2).
      pose proof (fiemap_loop_calls (to_u64 st_size) (w_junk w) (w_chunks w) s0 Hok0 Hwf)
        as Hb.
      unfold ioctl_calls, fits, INT_MAX, sizeof_fiemap_extent in Hb.
      unfold s0 in Hb. cbn [initial_state result_extents st_log requests length] in Hb.
      pow2. lia. }
  assert (Hbound : forall s', fiemap_loop (to_u64 st_size) (w_junk w) (w_chunks w) s0
                              = LoopBlocked s' ->
                              fits (Z.of_nat (length (w_chunks w)))).
  { intros s' Hl.
    apply (fiemap_loop_bounded (to_u64 st_size) (w_junk w) (w_chunks w) s0 s' Hok0 Hwf Hl). }
  set (total := Z.of_nat (length (w_chunks w))) in *.
  rewrite (requests_read_fiemap h w st_size Hs Hm1 Hm2).
  rewrite (read_fiemap_enter h w st_size Hs Hm1 Hm2). fold s0.
  assert (Hsplit : w_chunks w = (pre ++ [io]) ++ rest)
    by (rewrite Hchunks, <- app_assoc; reflexivity).
  rewrite Hsplit in Hwf. apply wf_script_app in Hwf as [Hwpre Hwrest].
  assert (Hloop : fiemap_loop (to_u64 st_size) (w_junk w) (w_chunks w) s0
                  = fiemap_loop (to_u64 st_size) (w_junk w) rest
                                (appended_all (to_u64 st_size) (pre ++ [io]) s0))
    by (rewrite Hsplit; now apply loop_prefix).
  rewrite Hloop in *.
  set (s2 := appended_all (to_u64 st_size) (pre ++ [io]) s0) in *.
  assert (Hok2 : acc_ok s2) by now apply acc_ok_appended_all.
  assert (Hlt2 : fiemap_start s2 < to_u64 st_size) by now apply cursor_appended_all.
  assert (Hstart : fiemap_start s2 = cursor_after io).
  { unfold s2. rewrite fiemap_start_appended_all, map_app. cbn [map].
    apply last_last. }
  assert (Hcalls : length (requests (st_log s2)) = S (length pre)).
  { fold (ioctl_calls (st_log s2)). unfold s2.
    rewrite ioctl_calls_appended_all, length_app. cbn. lia. }
  split.
  - destruct (fiemap_loop_requests (to_u64 st_size) (w_junk w) rest s2 Hok2 Hwrest)
      as (k & Hk & ->).
    specialize (Hk Hlt2). destruct k as [|k]; [lia|].
    cbn [firstn map]. rewrite <- Hcalls, nth_error_app2 by lia.
    rewrite Nat.sub_diag. cbn. now rewrite Hstart.
  - pose proof (fiemap_loop_sound (to_u64 st_size) (w_junk w) rest s2 Hok2 Hwrest) as Hl.
    destruct (fiemap_loop (to_u64 st_size) (w_junk w) rest s2) as [s' | s' | s' |].
    + destruct Hl as (_ & _ & k & _ & _ & _ & Hres & _).
      exists (all_extents (firstn k rest)). cbn [fm_extents set_mapped_extents].
      rewrite Hres. unfold s2. now rewrite result_fiemap_appended_all.
    + exact I.
    + now apply (Hbound s').
    + exact Hl.
Qed.

(** An instance of C6 (as the code has it): the second answer of the
    two-block file repeats the first. *)
Lemma non_advancing_cursor_example :
  nth_error (requests (log_of (read_fiemap empty_heap repeating_file))) 2
  = Some (chunk_request 4096 8192) /\
  match read_fiemap empty_heap repeating_file with
  | Returned (Some (_, r)) _ _ =>
      exists more, fm_extents r = blocks 0 1 ++ blocks 0 1 ++ more
  | Returned None _ _ => True
  | Blocked _ => fits (Z.of_nat (length (w_chunks repeating_file)))
  | Undefined => False
  end /\
  Z.of_nat (ioctl_calls (log_of (read_fiemap empty_heap repeating_file))) <= 38347923.
Proof.
  apply (non_advancing_cursor_queried_again empty_heap repeating_file (2 * 4096)
           [answer (blocks 0 1)] (answer (blocks 0 1)) [answer (blocks_last 1 1)]);
    try (vm_compute; reflexivity).
  - unfold fits. vm_compute. discriminate.
  - vm_compute. discriminate.
Defined.

(** C6 as stated fails: on the two-block file the second answer leaves
    the cursor at 4096, where it was; the driver asks again from 4096 and
    returns three extents, the first one twice, with no message. *)
Lemma non_advancing_cursor_not_fatal :
  map fm_start (requests (log_of (read_fiemap empty_heap repeating_file)))
  = [0; 4096; 4096] /\
  option_map fm_extents (result_of (read_fiemap empty_heap repeating_file))
  = Some [extent_at 0 0; extent_at 0 0; extent_at 1 FIEMAP_EXTENT_LAST] /\
  errors (log_of (read_fiemap empty_heap repeating_file)) = [].
Proof. vm_compute. repeat split. Qed.

(** C7.  For a file of size 0, with [fstat] and both allocations
    succeeding, the loop body never runs: no interface call is issued,
    nothing is written to the error stream, and the block returned (not
    [NULL]) holds no extent and the count 0. *)
Theorem empty_file_returns_empty_map (h : heap) (w : world) :
  w_fstat w = FstatOk 0 ->
  w_malloc_fiemap w = true -> w_malloc_result w = true ->
  exists p r h' log,
    read_fiemap h w = Returned (Some (p, r)) h' log /\
    fm_mapped_extents r = 0 /\
    fm_extents r = [] /\
    ioctl_calls log = 0%nat /\
    errors log = [].
Proof.
  intros Hs Hm1 Hm2.
  rewrite (read_fiemap_enter h w 0 Hs Hm1 Hm2).
  rewrite fiemap_loop_exit by (cbn; lia).
  eexists _, _, _, _. split; [reflexivity|]. cbn. repeat split.
Qed.

(** An instance of C7: the kernel would answer, but is not asked. *)
Lemma empty_file_example :
  exists p r h' log,
    read_fiemap empty_heap empty_file = Returned (Some (p, r)) h' log /\
    fm_mapped_extents r = 0 /\
    fm_extents r = [] /\
    ioctl_calls log = 0%nat /\
    errors log = [].
Proof.
  apply (empty_file_returns_empty_map empty_heap empty_file); reflexivity.
Defined.

(** C8, as the code has it.  [read_fiemap] reports a file-size lookup
    failure exactly when [fstat] fails; it then returns [NULL] at once,
    with no allocation and no query.  The size itself is not looked at: a
    file of size 0 passes this step (see C7). *)
Theorem size_lookup_failure_iff_fstat_fails (h : heap) (w : world) :
  ((exists errno, In (MsgCannotStat errno) (errors (log_of (read_fiemap h w)))) <->
   (exists errno, w_fstat w = FstatFail errno)) /\
  (forall errno, w_fstat w = FstatFail errno ->
                 read_fiemap h w = Returned None h [EvStderr (MsgCannotStat errno)]).
Proof.
  split; [split|].
  - intros (errno & Hin).
    pose proof (read_fiemap_errors h w) as He.
    destruct (read_fiemap h w) as [[res|] h' log | log |]; cbn in Hin.
    + rewrite He in Hin. contradiction.
    + destruct He as [(e & Hs & _) | (st_size & m & _ & Hm & Hkind)]; [now exists e|].
      rewrite Hm in Hin. destruct Hin as [-> | []].
      destruct Hkind as [Hk | (e & Hk)]; discriminate.
    + rewrite He in Hin. contradiction.
    + contradiction.
  - intros (errno & Hs). exists errno. unfold read_fiemap. rewrite Hs. cbn. now left.
  - intros errno Hs. unfold read_fiemap. now rewrite Hs.
Qed.

(** An instance of C8 (as the code has it): a descriptor [fstat]
    rejects. *)
Lemma size_lookup_failure_example :
  read_fiemap empty_heap unreadable_file
  = Returned None empty_heap [EvStderr (MsgCannotStat 9)].
Proof.
  apply (proj2 (size_lookup_failure_iff_fstat_fails empty_heap unreadable_file) 9).
  reflexivity.
Defined.

(** C8 as stated fails for zero-size files: the empty file gets a result
    with count 0 and no message, not a file-size lookup failure. *)
Lemma zero_size_is_not_an_error :
  option_map fm_mapped_extents (result_of (read_fiemap empty_heap empty_file)) = Some 0 /\
  errors (log_of (read_fiemap empty_heap empty_file)) = [].
Proof. vm_compute. split; reflexivity. Qed.

(** C9.  [main] exits with a status other than success exactly when it
    is given no file argument.  Given at least one, it exits with success
    whatever happens to the files: a file that cannot be opened, or whose
    query returns [NULL], is reported on the error stream and gets no line
    on the output; every other file, before or after a failing one, gets
    its line.  (A query the kernel never answers keeps [main] from
    exiting at all; the statement is about the runs in which every query
    returns.) *)
Theorem main_exit_status (argv0 : String.string)
        (args : list (String.string * open_result)) :
  forallb file_returns args = true ->
  exists status h log,
    main argv0 args = Exited status h log /\
    (status <> EXIT_SUCCESS <-> args = []) /\
    (args <> [] ->
     log = flat_map file_events args /\
     Forall (fun arg => if file_fails arg then reported_and_skipped arg else processed arg)
            args).
Proof.
  intros Hret. unfold main. destruct args as [|arg args].
  - cbn. eexists _, _, _. split; [reflexivity|]. split.
    + split; [reflexivity | discriminate].
    + intros Hne. congruence.
  - replace (1 + Z.of_nat (length (arg :: args)) <? 2) with false
      by (symmetry; apply Z.ltb_ge; cbn [length]; lia).
    destruct (main_loop_exits (arg :: args) empty_heap [] Hret) as (h' & Hm).
    exists EXIT_SUCCESS, h', (flat_map file_events (arg :: args)).
    split; [exact Hm|]. split.
    + split; [congruence | discriminate].
    + intros _. split; [reflexivity|].
      apply Forall_forall. intros a Hin. apply file_events_kind.
      rewrite forallb_forall in Hret. now apply Hret.
Qed.

(** An instance of C9: three arguments, the first two failing. *)
Lemma main_exit_status_example :
  exists status h log,
    main "fiemap" example_args = Exited status h log /\
    (status <> EXIT_SUCCESS <-> example_args = []) /\
    (example_args <> [] ->
     log = flat_map file_events example_args /\
     Forall (fun arg => if file_fails arg then reported_and_skipped arg else processed arg)
            example_args).
Proof.
  apply (main_exit_status "fiemap" example_args). vm_compute. reflexivity.
Defined.

(** C10.  An answer whose last extent ends at or past the file size, not
    flagged as the file's last and not empty, also ends the loop with
    success: after the continuing answers [pre] and such an answer [fin]
    the driver issues no further call (whatever answers [rest] the file
    system would still give), writes nothing to the error stream, and
    returns the extents of [pre] and [fin] with their count. *)
Theorem cursor_at_file_size_ends_loop (h : heap) (w : world) (st_size : Z)
        (pre : list chunk_io) (fin : chunk_io) (rest : list chunk_io) :
  w_fstat w = FstatOk st_size ->
  w_malloc_fiemap w = true -> w_malloc_result w = true ->
  w_chunks w = pre ++ fin :: rest ->
  0 < to_u64 st_size ->
  wf_script (pre ++ [fin]) = true ->
  forallb (continuing (to_u64 st_size)) pre = true ->
  stops_by_cursor (to_u64 st_size) fin = true ->
  fits (sum_mapped (pre ++ [fin])) ->
  stops_by_flag fin = false /\ stops_by_zero fin = false /\
  exists p r h' log,
    read_fiemap h w = Returned (Some (p, r)) h' log /\
    ioctl_calls log = S (length pre) /\
    errors log = [] /\
    fm_mapped_extents r = sum_mapped (pre ++ [fin]) /\
    fm_extents r = all_extents (pre ++ [fin]).
Proof.
  intros Hs Hm1 Hm2 Hchunks Hsize Hwf Hc Hstop Hfits.
  destruct (stops_by_cursor_inv _ _ Hstop) as (Hio & Hne & Hmem & Hlast & Hend).
  split; [|split].
  - unfold stops_by_flag. rewrite Hio. fold (extents_of fin). rewrite Hlast.
    now rewrite andb_false_r.
  - unfold stops_by_zero. rewrite Hio.
    destruct (extents_of fin); [congruence | reflexivity].
  - destruct (loop_stops (to_u64 st_size) (w_junk w) pre fin rest
                         (initial_state w (S (next h)) (entry_heap h)))
      as (s' & Hloop & Hprog & _); try assumption; try apply acc_ok_initial.
    + rewrite Hstop. now rewrite orb_true_r.
    + rewrite <- Hchunks in Hloop.
      destruct (read_fiemap_done h w st_size s' (pre ++ [fin]) Hs Hm1 Hm2 Hloop Hprog)
        as (p & r & h' & log & Hret & Hcalls & Hcount & Hx & Herr).
      exists p, r, h', log. rewrite length_app in Hcalls. cbn in Hcalls.
      repeat split; try assumption. lia.
Qed.

(** An instance of C10: four blocks answered as 2 + 2 extents without the
    flag; the third scripted answer is never asked for. *)
Lemma cursor_at_file_size_example :
  stops_by_flag (answer (blocks 2 2)) = false /\
  stops_by_zero (answer (blocks 2 2)) = false /\
  exists p r h' log,
    read_fiemap empty_heap unflagged_file = Returned (Some (p, r)) h' log /\
    ioctl_calls log = 2%nat /\
    errors log = [] /\
    fm_mapped_extents r = 4 /\
    fm_extents r = blocks 0 4.
Proof.
  apply (cursor_at_file_size_ends_loop empty_heap unflagged_file (4 * 4096)
           [answer (blocks 0 2)] (answer (blocks 2 2)) [answer (blocks 4 2)]);
    try (vm_compute; reflexivity).
  unfold fits. vm_compute. discriminate.
Defined.

(** * Further properties *)

(** ** The heap across a run *)

Lemma heap_wf_free (p : ptr) (h : heap) : heap_wf h -> heap_wf (free p h).
Proof.
  unfold heap_wf, free. cbn [live next]. rewrite !Forall_forall.
  intros Hwf q Hin. apply in_remove in Hin as [Hin _]. now apply Hwf.
Qed.

(** Where every return of [read_fiemap] leaves the heap. *)
Lemma read_fiemap_heap (h : heap) (w : world) :
  wf_script (w_chunks w) = true -> heap_wf h ->
  match read_fiemap h w with
  | Returned (Some (p, _)) h' _ =>
      live h' = p :: live h /\ ~ In p (live h) /\ heap_wf h'
  | Returned None h' _ => live h' = live h /\ heap_wf h'
  | Blocked _ => True
  | Undefined => False
  end.
Proof.
  intros Hwf Hh.
  destruct (w_fstat w) as [errno | st_size] eqn:Hs.
  { unfold read_fiemap. rewrite Hs. auto. }
  destruct (w_malloc_fiemap w) eqn:Hm1.
  2:{ unfold read_fiemap, malloc. rewrite Hs, Hm1. auto. }
  destruct (w_malloc_result w) eqn:Hm2.
  2:{ unfold read_fiemap, malloc. rewrite Hs, Hm1, Hm2. split.
      - unfold fail_cleanup, free. cbn [live next].
        apply remove_head_eq. now apply heap_wf_fresh.
      - unfold fail_cleanup. apply heap_wf_free.
        unfold heap_wf in *. cbn [live next]. rewrite Forall_forall in *.
        intros q [<- | Hin]; [lia|]. specialize (Hh _ Hin). lia. }
  rewrite (read_fiemap_enter h w st_size Hs Hm1 Hm2).
  set (s0 := initial_state w (S (next h)) (entry_heap h)).
  pose proof (fiemap_loop_sound (to_u64 st_size) (w_junk w) (w_chunks w) s0
                                (acc_ok_initial _ _ _) Hwf) as Hl.
  pose proof (owns_initial w h Hh) as Hown0. fold s0 in Hown0.
  pose proof (heap_wf_fresh h Hh) as Hfresh.
  destruct (fiemap_loop _ _ _ s0) as [s' | s' | s' |]; [| | exact I | exact Hl].
  - destruct Hl as (_ & Hown & _). specialize (Hown _ Hown0).
    split; [now apply live_after_done|]. split.
    + destruct Hown as (_ & _ & Hnot). intros Hin. apply Hnot. now right.
    + apply heap_wf_free. apply Hown.
  - destruct Hl as (Hown & _). specialize (Hown _ Hown0).
    split; [now apply live_after_fail|].
    unfold fail_cleanup. apply heap_wf_free, heap_wf_free. apply Hown.
Qed.

(** X1.  Against a file system that keeps the interface's contract (at
    most 1024 extents per answer), [read_fiemap] never reads or writes out
    of the bounds of its two blocks (the extents [dump_extents] reads to
    print them, the [memcpy] into the result, the read of the chunk's last
    extent), and it leaks nothing: when it returns
    [NULL] the live blocks are those at entry; when it returns the map, the
    chunk block is freed and the one block more is the map, at a fresh
    address, holding exactly as many extents as [fm_mapped_extents]
    says. *)
Theorem read_fiemap_memory_safe (h : heap) (w : world) :
  wf_script (w_chunks w) = true -> heap_wf h ->
  match read_fiemap h w with
  | Returned (Some (p, r)) h' _ =>
      live h' = p :: live h /\ ~ In p (live h) /\
      length (fm_extents r) = Z.to_nat (fm_mapped_extents r)
  | Returned None h' _ => live h' = live h
  | Blocked _ => True
  | Undefined => False
  end.
Proof.
  intros Hwf Hh.
  pose proof (read_fiemap_heap h w Hwf Hh) as Hheap.
  pose proof (read_fiemap_sound h w Hwf) as Hsound.
  destruct (read_fiemap h w) as [[[p r]|] h' log | log |]; try assumption.
  - destruct Hheap as (Hlive & Hnew & _).
    destruct Hsound as [(k & _ & _ & Hcount & Hx) _].
    repeat split; try assumption.
    rewrite Hx, Hcount, sum_mapped_length. now rewrite Nat2Z.id.
  - apply Hheap.
Qed.

(** An instance of X1: the three-chunk file. *)
Lemma read_fiemap_memory_safe_example :
  match read_fiemap empty_heap three_chunk_file with
  | Returned (Some (p, r)) h' _ =>
      live h' = p :: live empty_heap /\ ~ In p (live empty_heap) /\
      length (fm_extents r) = Z.to_nat (fm_mapped_extents r)
  | Returned None h' _ => live h' = live empty_heap
  | Blocked _ => True
  | Undefined => False
  end.
Proof.
  apply (read_fiemap_memory_safe empty_heap three_chunk_file).
  - vm_compute. reflexivity.
  - constructor.
Defined.

(** X2.  [read_fiemap] never returns [NULL] silently and never reports an
    error with a result: a return of the map, like a query still waiting
    for its answer, has written nothing to the error stream; a return of
    [NULL] has written exactly one message, the file-size message when
    [fstat] failed and otherwise an out-of-memory or an ioctl message. *)
Theorem null_iff_one_message (h : heap) (w : world) :
  match read_fiemap h w with
  | Returned (Some _) _ log => errors log = []
  | Returned None _ log =>
      exists m, errors log = [m] /\
                match w_fstat w with
                | FstatFail errno => m = MsgCannotStat errno
                | FstatOk _ => m = MsgOutOfMemory \/ exists errno, m = MsgIoctlFailed errno
                end
  | Blocked log => errors log = []
  | Undefined => True
  end.
Proof.
  pose proof (read_fiemap_errors h w) as He.
  destruct (read_fiemap h w) as [[res|] h' log | log |]; try assumption.
  destruct He as [(errno & -> & Hm) | (st_size & m & -> & Hm & Hkind)].
  - now exists (MsgCannotStat errno).
  - now exists m.
Qed.

(** X3.  When either allocation at the start fails (fiemap.c:98-108),
    [read_fiemap] returns [NULL] with the out-of-memory message before any
    query, and no block stays live: the chunk block, if it was obtained,
    is freed. *)
Theorem malloc_failure_returns_null (h : heap) (w : world) (st_size : Z) :
  heap_wf h ->
  w_fstat w = FstatOk st_size ->
  w_malloc_fiemap w = false \/ w_malloc_result w = false ->
  exists h',
    read_fiemap h w = Returned None h' [EvStderr MsgOutOfMemory] /\
    live h' = live h.
Proof.
  intros Hh Hs Hfail. unfold read_fiemap, malloc. rewrite Hs.
  destruct (w_malloc_fiemap w).
  - destruct Hfail as [Hf | ->]; [discriminate|].
    eexists. split; [reflexivity|].
    unfold fail_cleanup, free. cbn [live next].
    apply remove_head_eq. now apply heap_wf_fresh.
  - eexists. split; reflexivity.
Qed.

(** An instance of X3: no memory for the result block. *)
Lemma malloc_failure_example :
  exists h',
    read_fiemap empty_heap no_result_memory = Returned None h' [EvStderr MsgOutOfMemory] /\
    live h' = live empty_heap.
Proof.
  apply (malloc_failure_returns_null empty_heap no_result_memory (8 * 4096)).
  - constructor.
  - reflexivity.
  - right. reflexivity.
Defined.

(** X4.  When the result cannot be grown for a chunk (fiemap.c:143-147),
    [read_fiemap] returns [NULL] with the out-of-memory message: the
    extents of the chunks before, and the chunk block, are freed, so that
    the live blocks are those at entry.  The chunk that could not be stored
    has been queried, one interface call per answer up to it. *)
Theorem realloc_failure_returns_null (h : heap) (w : world) (st_size : Z)
        (pre : list chunk_io) (fin : chunk_io) (rest : list chunk_io) :
  heap_wf h ->
  w_fstat w = FstatOk st_size ->
  w_malloc_fiemap w = true -> w_malloc_result w = true ->
  w_chunks w = pre ++ fin :: rest ->
  0 < to_u64 st_size ->
  wf_script (pre ++ [fin]) = true ->
  forallb (continuing (to_u64 st_size)) pre = true ->
  fits (sum_mapped pre) ->
  extents_of fin <> [] -> io_ioctl fin = IoctlOk (extents_of fin) ->
  io_realloc fin = false ->
  exists h' log,
    read_fiemap h w = Returned None h' log /\
    live h' = live h /\
    ioctl_calls log = S (length pre) /\
    errors log = [MsgOutOfMemory].
Proof.
  intros Hh Hs Hm1 Hm2 Hchunks Hsize Hwf Hc Hfits Hne Hio Hmem.
  apply wf_script_app in Hwf as [Hwpre Hwfin].
  apply forallb_cons_inv in Hwfin as [Hwfin _].
  set (s0 := initial_state w (S (next h)) (entry_heap h)).
  assert (Hok0 : acc_ok s0) by apply acc_ok_initial.
  assert (Hown0 : owns s0 (next h :: live h)) by now apply owns_initial.
  rewrite (read_fiemap_enter h w st_size Hs Hm1 Hm2), Hchunks. fold s0.
  rewrite loop_prefix by assumption.
  set (s1 := appended_all (to_u64 st_size) pre s0).
  assert (Hlt1 : fiemap_start s1 < to_u64 st_size) by now apply cursor_appended_all.
  assert (Hok1 : acc_ok s1) by now apply acc_ok_appended_all.
  rewrite fiemap_loop_enter by assumption.
  rewrite (loop_body_no_memory (to_u64 st_size) (w_junk w) fin s1 (extents_of fin));
    try assumption; [| now apply wf_answer_length | now left].
  eexists _, _. split; [reflexivity|].
  split; [|split].
  - apply (live_after_fail (emit _ s1)).
    + apply owns_emit. now apply owns_appended_all.
    + now apply heap_wf_fresh.
  - unfold emit, ioctl_calls. cbn [st_log]. rewrite requests_app. cbn [requests].
    rewrite requests_app, requests_dump_lines, length_app.
    fold (ioctl_calls (st_log s1)). unfold s1.
    rewrite ioctl_calls_appended_all. cbn. lia.
  - unfold emit. cbn [st_log]. rewrite errors_app. cbn [errors].
    rewrite errors_app, errors_dump_lines. unfold s1.
    now rewrite errors_appended_all.
Qed.

(** An instance of X4: no memory to grow the result for the second
    chunk. *)
Lemma realloc_failure_example :
  exists h' log,
    read_fiemap empty_heap starved_file = Returned None h' log /\
    live h' = live empty_heap /\
    ioctl_calls log = 2%nat /\
    errors log = [MsgOutOfMemory].
Proof.
  apply (realloc_failure_returns_null empty_heap starved_file (8 * 4096)
           [answer (blocks 0 4)] (mk_io (IoctlOk (blocks_last 4 4)) false) []);
    try (vm_compute; reflexivity).
  - constructor.
  - unfold fits. vm_compute. discriminate.
  - discriminate.
Defined.

(** ** The limit of [extents_size] *)

Lemma extents_size_wraps (result_extents mapped : Z) :
  0 <= result_extents -> fits result_extents -> 0 <= mapped <= MAX_EXTENTS ->
  ~ fits (result_extents + mapped) ->
  extents_size result_extents mapped
  = sizeof_fiemap_extent * (result_extents + mapped) - 2 ^ 32.
Proof.
  unfold fits, INT_MAX, extents_size, sizeof_fiemap_extent, MAX_EXTENTS.
  intros H0 H1 H2 H3.
  rewrite to_u32_small by (pow2; lia).
  rewrite to_u64_small by (pow2; lia).
  apply to_int_high. pow2. lia.
Qed.

(** The loop leaves with a consistent accumulator. *)
Lemma read_fiemap_result_fits (h : heap) (w : world) :
  wf_script (w_chunks w) = true ->
  match read_fiemap h w with
  | Returned (Some (_, r)) _ _ => 0 <= fm_mapped_extents r /\ fits (fm_mapped_extents r)
  | _ => True
  end.
Proof.
  intros Hwf.
  destruct (w_fstat w) as [errno | st_size] eqn:Hs.
  { unfold read_fiemap. now rewrite Hs. }
  destruct (w_malloc_fiemap w) eqn:Hm1.
  2:{ unfold read_fiemap, malloc. now rewrite Hs, Hm1. }
  destruct (w_malloc_result w) eqn:Hm2.
  2:{ unfold read_fiemap, malloc. now rewrite Hs, Hm1, Hm2. }
  rewrite (read_fiemap_enter h w st_size Hs Hm1 Hm2).
  pose proof (fiemap_loop_sound (to_u64 st_size) (w_junk w) (w_chunks w)
                (initial_state w (S (next h)) (entry_heap h))
                (acc_ok_initial _ _ _) Hwf) as Hl.
  destruct (fiemap_loop _ _ _ _) as [s' | s' | s' |]; try exact I.
  destruct Hl as ((Hre & Hfit & _) & _). cbn. now split.
Qed.

(** X5.  No map [read_fiemap] returns has more than 38,347,922 extents:
    the byte size of its extents, 56 each, is at most [INT_MAX], because
    that size passes through the [int] variable [extents_size]
    (fiemap.c:81, 140). *)
Theorem map_size_limit (h : heap) (w : world) :
  wf_script (w_chunks w) = true ->
  match read_fiemap h w with
  | Returned (Some (_, r)) _ _ =>
      0 <= fm_mapped_extents r <= 38347922 /\
      sizeof_fiemap_extent * fm_mapped_extents r <= INT_MAX
  | _ => True
  end.
Proof.
  intros Hwf. pose proof (read_fiemap_result_fits h w Hwf) as Hfit.
  destruct (read_fiemap h w) as [[[p r]|] h' log | log |]; try exact I.
  destruct Hfit as [Hre Hfit]. unfold fits, INT_MAX, sizeof_fiemap_extent in *.
  pow2. lia.
Qed.

(** An instance of X5: the three-chunk file. *)
Lemma map_size_limit_example :
  match read_fiemap empty_heap three_chunk_file with
  | Returned (Some (_, r)) _ _ =>
      0 <= fm_mapped_extents r <= 38347922 /\
      sizeof_fiemap_extent * fm_mapped_extents r <= INT_MAX
  | _ => True
  end.
Proof.
  apply (map_size_limit empty_heap three_chunk_file). vm_compute. reflexivity.
Defined.

(** X6.  Why the limit: when a chunk of up to 1024 extents takes the
    result past [INT_MAX] bytes, the size computed into the [int]
    [extents_size] (fiemap.c:140) is negative, the request handed to
    [realloc] (fiemap.c:143) wraps to more than [PTRDIFF_MAX], and the
    [realloc] fails whatever memory the system has. *)
Theorem extents_size_overflow (result_extents mapped : Z) (mem_ok : bool)
        (p : ptr) (h : heap) :
  0 <= result_extents -> fits result_extents ->
  0 <= mapped <= MAX_EXTENTS ->
  ~ fits (result_extents + mapped) ->
  extents_size result_extents mapped < 0 /\
  PTRDIFF_MAX < to_u64 (sizeof_fiemap + extents_size result_extents mapped) /\
  realloc mem_ok p (to_u64 (sizeof_fiemap + extents_size result_extents mapped)) h
  = (None, h).
Proof.
  intros H0 H1 H2 H3.
  pose proof (realloc_size_overflow _ _ H0 H1 H2 H3) as Hov.
  split; [|split; [exact Hov|]].
  - rewrite extents_size_wraps by assumption.
    unfold fits, INT_MAX, sizeof_fiemap_extent, MAX_EXTENTS in *. pow2. lia.
  - unfold realloc. apply Z.leb_gt in Hov. now rewrite Hov.
Qed.

(** An instance of X6: one extent more than the limit. *)
Lemma extents_size_overflow_example :
  extents_size 38347922 1 < 0 /\
  PTRDIFF_MAX < to_u64 (sizeof_fiemap + extents_size 38347922 1) /\
  realloc true 2%nat (to_u64 (sizeof_fiemap + extents_size 38347922 1)) empty_heap
  = (None, empty_heap).
Proof.
  apply (extents_size_overflow 38347922 1 true 2%nat empty_heap).
  - lia.
  - unfold fits. vm_compute. discriminate.
  - unfold MAX_EXTENTS. lia.
  - unfold fits. vm_compute. intros H. now apply H.
Defined.

(** ** How many queries a run makes *)

(** X7.  A run of [read_fiemap] makes at most 38,347,923 interface
    calls, whatever the file system answers within its contract: also when
    no answer carries the last-extent flag and the cursor never reaches
    the file size.  Every query that does not end the loop has added an
    extent to the result, and the result stops growing at the [int] limit
    of X5. *)
Theorem ioctl_calls_bounded (h : heap) (w : world) :
  wf_script (w_chunks w) = true ->
  Z.of_nat (ioctl_calls (log_of (read_fiemap h w))) <= 38347923.
Proof.
  intros Hwf.
  destruct (w_fstat w) as [errno | st_size] eqn:Hs.
  { unfold read_fiemap. rewrite Hs. cbn. lia. }
  destruct (w_malloc_fiemap w) eqn:Hm1.
  2:{ unfold read_fiemap, malloc. rewrite Hs, Hm1. cbn. lia. }
  destruct (w_malloc_result w) eqn:Hm2.
  2:{ unfold read_fiemap, malloc. rewrite Hs, Hm1, Hm2. cbn. lia. }
  unfold ioctl_calls. rewrite (requests_read_fiemap h w st_size Hs Hm1 Hm2).
  pose proof (fiemap_loop_calls (to_u64 st_size) (w_junk w) (w_chunks w)
                (initial_state w (S (next h)) (entry_heap h))
                (acc_ok_initial _ _ _) Hwf) as Hb.
  unfold ioctl_calls, fits, INT_MAX, sizeof_fiemap_extent in Hb.
  cbn [initial_state result_extents st_log requests length] in Hb.
  pow2. lia.
Qed.

(** An instance of X7: the file whose answers repeat. *)
Lemma ioctl_calls_bounded_example :
  Z.of_nat (ioctl_calls (log_of (read_fiemap empty_heap repeating_file))) <= 38347923.
Proof.
  apply (ioctl_calls_bounded empty_heap repeating_file). vm_compute. reflexivity.
Defined.

(** ** The extent lines of a run *)

Lemma extent_lines_app (a b : list event) :
  extent_lines (a ++ b) = extent_lines a ++ extent_lines b.
Proof.
  induction a as [|ev a IH]; [reflexivity|].
  destruct ev as [req | m | []]; cbn; now rewrite IH.
Qed.

Lemma extent_lines_map (f : nat * fiemap_extent -> Z) (l : list (nat * fiemap_extent)) :
  extent_lines (map (fun ie => EvStdout (OutExtent (f ie) (snd ie))) l)
  = map (fun ie => (f ie, snd ie)) l.
Proof. induction l as [|ie l IH]; cbn; [reflexivity | now rewrite IH]. Qed.

Lemma numbered_shift (first : Z) (extents : list fiemap_extent) :
  forall k : nat,
  map (fun ie => (first + Z.of_nat (fst ie), snd ie))
      (combine (seq (S k) (length extents)) extents)
  = map (fun ie => (first + 1 + Z.of_nat (fst ie), snd ie))
        (combine (seq k (length extents)) extents).
Proof.
  induction extents as [|e extents IH]; intros k; [reflexivity|].
  cbn [length seq combine map fst snd]. rewrite IH. f_equal. f_equal. lia.
Qed.

Lemma numbered_cons (first : Z) (e : fiemap_extent) (extents : list fiemap_extent) :
  numbered first (e :: extents) = (first, e) :: numbered (first + 1) extents.
Proof.
  unfold numbered. cbn [length seq combine map fst snd].
  rewrite numbered_shift. f_equal. f_equal. lia.
Qed.

Lemma numbered_app (first : Z) (a b : list fiemap_extent) :
  numbered first (a ++ b)
  = numbered first a ++ numbered (first + Z.of_nat (length a)) b.
Proof.
  revert first. induction a as [|e a IH]; intros first.
  - cbn [app length]. now rewrite Z.add_0_r.
  - cbn [app length]. rewrite !numbered_cons, IH. cbn [app]. do 3 f_equal. lia.
Qed.

(** The lines [dump_extents] prints for a chunk are its extents, numbered
    from the count of the result so far (fiemap.c:53-60, 133). *)
Lemma extent_lines_dump_lines (start span : Z) (extents : list fiemap_extent)
      (result_extents : Z) :
  0 <= result_extents -> fits result_extents ->
  (length extents <= Z.to_nat MAX_EXTENTS)%nat ->
  extent_lines (dump_lines (ioctl_fill (chunk_request start span) extents)
                             (to_int result_extents))
  = numbered result_extents extents.
Proof.
  intros Hre Hfit Hwf. unfold dump_lines. rewrite !extent_lines_app.
  replace (extent_lines (if to_int result_extents =? 0 then [EvStdout OutHeader] else []))
    with (@nil (Z * fiemap_extent)) by now destruct (to_int result_extents =? 0).
  cbn [extent_lines app]. rewrite app_nil_r.
  rewrite ioctl_fill_mapped, Nat2Z.id.
  rewrite ioctl_fill_extents by now rewrite chunk_request_length.
  rewrite firstn_app_exact.
  rewrite (extent_lines_map
             (fun ie => to_int (to_int result_extents + Z.of_nat (fst ie)))).
  unfold numbered. apply map_ext_in. intros [i e] Hin. cbn [fst snd].
  apply in_combine_l, in_seq in Hin.
  unfold fits, INT_MAX, sizeof_fiemap_extent, MAX_EXTENTS in *.
  rewrite (to_int_small result_extents) by (pow2; lia).
  rewrite to_int_small by (pow2; lia). reflexivity.
Qed.

Section Lines.

Variable len : Z.
Variable junk : fiemap_extent.

Lemma extent_lines_appended (extents : list fiemap_extent) (s : loop_state) :
  acc_ok s -> (length extents <= Z.to_nat MAX_EXTENTS)%nat ->
  extent_lines (st_log (appended len extents s))
  = extent_lines (st_log s) ++ numbered (result_extents s) extents.
Proof.
  intros (Hre & Hfit & _) Hwf. unfold appended. cbn [st_log].
  rewrite extent_lines_app. cbn [extent_lines].
  now rewrite extent_lines_dump_lines.
Qed.

(** The loop prints every extent of the answers it consumed, once, in
    order, numbered on from the count it is entered with. *)
Lemma fiemap_loop_extent_lines (chunks : list chunk_io) :
  forall s : loop_state,
  acc_ok s -> wf_script chunks = true ->
  exists k,
    ioctl_calls (exit_log (fiemap_loop len junk chunks s))
    = (ioctl_calls (st_log s) + k)%nat /\
    extent_lines (exit_log (fiemap_loop len junk chunks s))
    = extent_lines (st_log s) ++
      numbered (result_extents s) (all_extents (firstn k chunks)).
Proof.
  unfold ioctl_calls.
  induction chunks as [|io rest IH]; intros s Hok Hwf.
  - destruct (Z_lt_dec (fiemap_start s) len) as [Hlt | Hge].
    + rewrite fiemap_loop_blocked by assumption. exists 1%nat.
      unfold emit. cbn [exit_log st_log].
      rewrite requests_app, extent_lines_app, length_app. cbn.
      now rewrite app_nil_r.
    + rewrite fiemap_loop_exit by lia. exists 0%nat. cbn.
      now rewrite Nat.add_0_r, app_nil_r.
  - destruct (Z_lt_dec (fiemap_start s) len) as [Hlt | Hge].
    2:{ rewrite fiemap_loop_exit by lia. exists 0%nat. cbn.
        now rewrite Nat.add_0_r, app_nil_r. }
    apply forallb_cons_inv in Hwf as [Hwio Hwf].
    pose proof (wf_answer_length io Hwio) as Hlen.
    pose proof Hok as (Hre & Hfit & _).
    rewrite fiemap_loop_enter by assumption.
    assert (Hone : forall x, extents_of io = x -> all_extents (firstn 1 (io :: rest)) = x).
    { intros x <-. unfold all_extents. cbn. apply app_nil_r. }
    destruct (loop_body_cases len junk io s Hok Hwio)
      as [(errno & Hio & ->) | [(Hio & ->) | [(x & Hio & Hne & Hwhy & ->) | (x & Hio & Hne & Hmem & Hfits & ->)]]];
      assert (Hx : extents_of io = extents_of io) by reflexivity;
      unfold extents_of in Hx at 2; rewrite Hio in Hx.
    + exists 1%nat. rewrite (Hone _ Hx). unfold emit. cbn [exit_log st_log].
      rewrite requests_app, extent_lines_app, length_app. cbn.
      now rewrite app_nil_r.
    + exists 1%nat. rewrite (Hone _ Hx). unfold emit. cbn [exit_log st_log].
      rewrite requests_app, extent_lines_app, length_app. cbn [requests extent_lines].
      rewrite requests_dump_lines, extent_lines_dump_lines
        by (assumption || (cbn; lia)).
      split; reflexivity.
    + rewrite Hx in Hlen.
      exists 1%nat. rewrite (Hone _ Hx). unfold emit. cbn [exit_log st_log].
      rewrite requests_app, extent_lines_app, length_app. cbn [requests extent_lines].
      rewrite requests_app, extent_lines_app, requests_dump_lines.
      rewrite extent_lines_dump_lines by assumption.
      cbn. now rewrite app_nil_r.
    + rewrite Hx in Hlen.
      assert (Hok' : acc_ok (appended len x s)) by now apply acc_ok_appended.
      destruct (flagged_last (last_extent x)).
      * exists 1%nat. rewrite (Hone _ Hx). cbn [exit_log].
        rewrite requests_appended, extent_lines_appended, length_app by assumption.
        split; reflexivity.
      * destruct (IH (appended len x s) Hok' Hwf) as (k & Hcalls & Hlines).
        exists (S k). rewrite Hcalls, Hlines.
        rewrite requests_appended, extent_lines_appended, length_app by assumption.
        split; [cbn; lia|].
        rewrite <- app_assoc. f_equal. cbn [firstn].
        unfold all_extents. cbn [map concat]. rewrite Hx.
        now rewrite numbered_app.
Qed.

End Lines.

(** X8.  The extent lines a run prints (fiemap.c:54-59) are numbered
    consecutively from 0 across all chunks and show, once each and in
    order, the extents of the answers to the run's queries, whether the run
    then returns the map, fails or waits; for a run that returns the map
    these are exactly the extents of the map, each under its index. *)
Theorem extent_lines_numbered (h : heap) (w : world) :
  wf_script (w_chunks w) = true ->
  extent_lines (log_of (read_fiemap h w))
  = numbered 0 (all_extents (firstn (ioctl_calls (log_of (read_fiemap h w)))
                                    (w_chunks w))) /\
  match read_fiemap h w with
  | Returned (Some (_, r)) _ log => extent_lines log = numbered 0 (fm_extents r)
  | _ => True
  end.
Proof.
  intros Hwf.
  assert (Hall : extent_lines (log_of (read_fiemap h w))
                 = numbered 0 (all_extents
                     (firstn (ioctl_calls (log_of (read_fiemap h w))) (w_chunks w)))).
  { destruct (w_fstat w) as [errno | st_size] eqn:Hs.
    { unfold read_fiemap. now rewrite Hs. }
    destruct (w_malloc_fiemap w) eqn:Hm1.
    2:{ unfold read_fiemap, malloc. now rewrite Hs, Hm1. }
    destruct (w_malloc_result w) eqn:Hm2.
    2:{ unfold read_fiemap, malloc. now rewrite Hs, Hm1, Hm2. }
    rewrite (read_fiemap_enter h w st_size Hs Hm1 Hm2).
    pose proof (fiemap_loop_sound (to_u64 st_size) (w_junk w) (w_chunks w)
                  (initial_state w (S (next h)) (entry_heap h))
                  (acc_ok_initial _ _ _) Hwf) as Hdef.
    destruct (fiemap_loop_extent_lines (to_u64 st_size) (w_junk w) (w_chunks w)
                (initial_state w (S (next h)) (entry_heap h))
                (acc_ok_initial _ _ _) Hwf) as (k & Hcalls & Hlines).
    destruct (fiemap_loop _ _ _ _) as [s' | s' | s' |]; [| | | contradiction];
      cbn [exit_log log_of initial_state st_log result_extents ioctl_calls
           requests extent_lines length app Nat.add] in *;
      unfold ioctl_calls in *;
      rewrite ?requests_app, ?extent_lines_app, ?length_app; cbn [requests extent_lines length];
      rewrite ?app_nil_r, ?Nat.add_0_r, Hcalls, Hlines; reflexivity. }
  split; [exact Hall|].
  pose proof (read_fiemap_sound h w Hwf) as Hsound.
  destruct (read_fiemap h w) as [[[p r]|] h' log | log |]; try exact I.
  destruct Hsound as [(k & _ & Hcalls & _ & Hx) _].
  cbn [log_of] in Hall. rewrite Hall, Hcalls, Hx. reflexivity.
Qed.

(** An instance of X8: the eight-block file. *)
Lemma extent_lines_numbered_example :
  extent_lines (log_of (read_fiemap empty_heap two_chunk_file))
  = numbered 0 (all_extents (firstn (ioctl_calls (log_of (read_fiemap empty_heap two_chunk_file)))
                                    (w_chunks two_chunk_file))) /\
  match read_fiemap empty_heap two_chunk_file with
  | Returned (Some (_, r)) _ log => extent_lines log = numbered 0 (fm_extents r)
  | _ => True
  end.
Proof.
  apply (extent_lines_numbered empty_heap two_chunk_file). vm_compute. reflexivity.
Defined.

(** ** What [main] leaves and prints *)

Lemma flat_map_agree {A B : Type} (f g : A -> list B) (l : list A) :
  (forall a, In a l -> f a = g a) -> flat_map f l = flat_map g l.
Proof.
  induction l as [|a l IH]; intros H; [reflexivity|].
  cbn [flat_map]. rewrite (H a) by now left.
  rewrite IH; [reflexivity|]. intros b Hb. apply H. now right.
Qed.

Lemma file_lines_flat_map (args : list (String.string * open_result)) :
  file_lines (flat_map file_events args) = flat_map (fun arg => file_lines (file_events arg)) args.
Proof.
  induction args as [|arg args IH]; [reflexivity|].
  cbn [flat_map]. now rewrite file_lines_app, IH.
Qed.

(** The count in the line of a mapped file is the number of extents in
    its map. *)
Lemma file_lines_file_events (arg : String.string * open_result) :
  file_wf arg = true -> file_lines (file_events arg) = file_line arg.
Proof.
  destruct arg as [name [errno | w]]; cbn [file_wf file_events file_line];
    intros Hwf; [reflexivity|].
  pose proof (read_fiemap_sound empty_heap w Hwf) as Hsound.
  pose proof (read_fiemap_file_lines empty_heap w) as Hf.
  destruct (read_fiemap empty_heap w) as [[[p r]|] h' l | l |];
    cbn [observe result_of log_of] in *; try assumption; try contradiction.
  destruct Hsound as [(k & _ & _ & Hcount & Hx) _].
  rewrite file_lines_app, Hf. cbn.
  now rewrite Hcount, Hx, sum_mapped_length.
Qed.

(** The heap through the loop of [main]: every mapped file leaves its map
    live. *)
Lemma main_loop_live (args : list (String.string * open_result)) :
  forall (h : heap) (log : list event),
  forallb file_returns args = true -> forallb file_wf args = true ->
  heap_wf h ->
  exists h' log',
    main_loop args h log = Exited EXIT_SUCCESS h' log' /\
    heap_wf h' /\
    length (live h') = (length (live h) + length (filter file_mapped args))%nat.
Proof.
  induction args as [|[name [errno | w]] args IH]; intros h log Hret Hwf Hh.
  - exists h, log. cbn. repeat split; [assumption | lia].
  - apply forallb_cons_inv in Hret as [_ Hret].
    apply forallb_cons_inv in Hwf as [_ Hwf].
    cbn [main_loop filter file_mapped]. now apply IH.
  - apply forallb_cons_inv in Hret as [Hw Hret].
    apply forallb_cons_inv in Hwf as [Hwfw Hwf].
    cbn [file_returns file_wf] in Hw, Hwfw.
    cbn [main_loop filter file_mapped].
    pose proof (read_fiemap_heap_independent h empty_heap w) as Hobs.
    pose proof (read_fiemap_heap h w Hwfw Hh) as Hheap.
    destruct (read_fiemap empty_heap w) as [[[p0 r0]|] h0 l0 | l0 |];
      try discriminate Hw;
      destruct (read_fiemap h w) as [[[p r]|] h1 l | l |]; try discriminate Hobs;
      cbn [result_of].
    + destruct Hheap as (Hlive & _ & Hh1).
      destruct (IH h1 (log ++ l ++ dump_fiemap r name) Hret Hwf Hh1)
        as (h' & log' & Hm & Hh' & Hlen).
      exists h', log'. repeat split; try assumption.
      rewrite Hlen, Hlive. cbn [length]. lia.
    + destruct Hheap as (Hlive & Hh1).
      destruct (IH h1 (log ++ l) Hret Hwf Hh1) as (h' & log' & Hm & Hh' & Hlen).
      exists h', log'. repeat split; try assumption.
      rewrite Hlen, Hlive. lia.
Qed.

(** X9.  [main] never frees a map: when it exits, the blocks still live
    are the maps [read_fiemap] returned, one for every file that was
    mapped and none for a file that failed.  (Nothing else is left: every
    chunk block, and the result block of every failed query, was freed by
    [read_fiemap].) *)
Theorem main_keeps_every_map (argv0 : String.string)
        (args : list (String.string * open_result)) :
  forallb file_returns args = true -> forallb file_wf args = true ->
  exists status h log,
    main argv0 args = Exited status h log /\
    length (live h) = length (filter file_mapped args).
Proof.
  intros Hret Hwf. unfold main. destruct args as [|arg args].
  - cbn. eexists _, _, _. split; reflexivity.
  - replace (1 + Z.of_nat (length (arg :: args)) <? 2) with false
      by (symmetry; apply Z.ltb_ge; cbn [length]; lia).
    destruct (main_loop_live (arg :: args) empty_heap [] Hret Hwf) as (h' & log' & Hm & _ & Hlen);
      [constructor|].
    exists EXIT_SUCCESS, h', log'. split; [exact Hm|]. exact Hlen.
Qed.

(** An instance of X9: of the three arguments one is mapped. *)
Lemma main_keeps_every_map_example :
  exists status h log,
    main "fiemap" example_args = Exited status h log /\
    length (live h) = 1%nat.
Proof.
  apply (main_keeps_every_map "fiemap" example_args); vm_compute; reflexivity.
Defined.

(** X10.  The "File ... has ... extents" lines [main] prints
    (fiemap.c:67, 207) are one for every mapped file, in the order of the
    arguments, each with the number of extents its map holds; a file that
    cannot be opened or whose query fails has none, and with no argument
    there is none. *)
Theorem main_prints_extent_counts (argv0 : String.string)
        (args : list (String.string * open_result)) :
  forallb file_returns args = true -> forallb file_wf args = true ->
  exists status h log,
    main argv0 args = Exited status h log /\
    file_lines log = flat_map file_line args.
Proof.
  intros Hret Hwf. unfold main. destruct args as [|arg args].
  - cbn. eexists _, _, _. split; reflexivity.
  - replace (1 + Z.of_nat (length (arg :: args)) <? 2) with false
      by (symmetry; apply Z.ltb_ge; cbn [length]; lia).
    destruct (main_loop_exits (arg :: args) empty_heap [] Hret) as (h' & Hm).
    eexists _, _, _. split; [exact Hm|].
    cbn [app]. rewrite file_lines_flat_map.
    apply flat_map_agree.
    intros a Hin. apply file_lines_file_events.
    rewrite forallb_forall in Hwf. now apply Hwf.
Qed.

(** An instance of X10: only the third argument is mapped, with its
    eight extents. *)
Lemma main_prints_extent_counts_example :
  exists status h log,
    main "fiemap" example_args = Exited status h log /\
    file_lines log = [("good"%string, 8)].
Proof.
  apply (main_prints_extent_counts "fiemap" example_args); vm_compute; reflexivity.
Defined.

(** ** Elapsed time *)

Lemma long_op_in_range (z : Z) : - 2 ^ 63 <= z < 2 ^ 63 -> long_op z = Some z.
Proof.
  intros [Hlo Hhi]. unfold long_op.
  apply Z.leb_le in Hlo. apply Z.ltb_lt in Hhi. now rewrite Hlo, Hhi.
Qed.

(** X11.  For two readings of the clock, [get_time_delta]
    (fiemap.c:71-74) is the exact number of nanoseconds from the first to
    the second, computed without overflow; and when the second is not
    before the first, the seconds the messages print
    ([elapsed / 1000000000L], fiemap.c:61, 173) are the whole seconds
    elapsed, rounded down, never negative. *)
Theorem get_time_delta_exact (start end_ : timespec) :
  clock_reading start = true -> clock_reading end_ = true ->
  get_time_delta start end_ = Some (nanoseconds end_ - nanoseconds start) /\
  (nanoseconds start <= nanoseconds end_ ->
   0 <= elapsed_seconds (nanoseconds end_ - nanoseconds start) /\
   elapsed_seconds (nanoseconds end_ - nanoseconds start) * 1000000000
   <= nanoseconds end_ - nanoseconds start
   < (elapsed_seconds (nanoseconds end_ - nanoseconds start) + 1) * 1000000000).
Proof.
  unfold clock_reading, get_time_delta, nanoseconds, elapsed_seconds.
  intros Hs He.
  apply andb_prop in Hs as [Hs Hs4]. apply andb_prop in Hs as [Hs Hs3].
  apply andb_prop in Hs as [Hs1 Hs2].
  apply andb_prop in He as [He He4]. apply andb_prop in He as [He He3].
  apply andb_prop in He as [He1 He2].
  apply Z.leb_le in Hs1, Hs3, Hs4, He1, He3, He4. apply Z.ltb_lt in Hs2, He2.
  change (2 ^ 32) with 4294967296 in *.
  split.
  - rewrite !long_op_in_range by (pow2; lia). f_equal. lia.
  - intros Horder.
    rewrite Z.quot_div_nonneg by lia.
    pose proof (Z.div_mod (tv_sec end_ * 1000000000 + tv_nsec end_
                           - (tv_sec start * 1000000000 + tv_nsec start)) 1000000000
                          ltac:(lia)) as Hdm.
    pose proof (Z.mod_pos_bound (tv_sec end_ * 1000000000 + tv_nsec end_
                                 - (tv_sec start * 1000000000 + tv_nsec start)) 1000000000
                                ltac:(lia)) as Hmod.
    pose proof (Z.div_pos (tv_sec end_ * 1000000000 + tv_nsec end_
                           - (tv_sec start * 1000000000 + tv_nsec start)) 1000000000
                          ltac:(lia) ltac:(lia)) as Hpos.
    lia.
Qed.

(** An instance of X11: readings 2.3 seconds apart print 2 seconds. *)
Lemma get_time_delta_example :
  get_time_delta reading_before reading_after = Some 2300000000 /\
  (nanoseconds reading_before <= nanoseconds reading_after ->
   0 <= elapsed_seconds 2300000000 /\
   elapsed_seconds 2300000000 * 1000000000 <= 2300000000
   < (elapsed_seconds 2300000000 + 1) * 1000000000).
Proof.
  apply (get_time_delta_exact reading_before reading_after); vm_compute; reflexivity.
Defined.

(** ** The summary lines of a run *)

Lemma retrieved_lines_app (a b : list event) :
  retrieved_lines (a ++ b) = retrieved_lines a ++ retrieved_lines b.
Proof.
  induction a as [|ev a IH]; [reflexivity|].
  destruct ev as [req | m | []]; cbn; now rewrite IH.
Qed.

Lemma summary_lines_app (a b : list event) :
  summary_lines (a ++ b) = summary_lines a ++ summary_lines b.
Proof.
  induction a as [|ev a IH]; [reflexivity|].
  destruct ev as [req | m | []]; cbn; now rewrite IH.
Qed.

Lemma total_app (a b : list Z) : total (a ++ b) = total a + total b.
Proof.
  unfold total. induction a as [|x a IH]; cbn [app fold_right]; [reflexivity | rewrite IH; lia].
Qed.

(** What [dump_extents] adds to the summary: the header when the running
    count is 0, and the chunk's count (fiemap.c:49-51, 61). *)
Lemma summary_lines_dump_lines (f : fiemap) (chunk : Z) :
  summary_lines (dump_lines f chunk)
  = (if chunk =? 0 then [OutHeader] else []) ++ [OutRetrieved (fm_mapped_extents f)] /\
  retrieved_lines (dump_lines f chunk) = [fm_mapped_extents f].
Proof.
  unfold dump_lines. rewrite !summary_lines_app, !retrieved_lines_app.
  assert (Hs : forall l : list (nat * fiemap_extent),
             summary_lines (map (fun ie => EvStdout (OutExtent (to_int (chunk + Z.of_nat (fst ie))) (snd ie))) l) = []
             /\ retrieved_lines (map (fun ie => EvStdout (OutExtent (to_int (chunk + Z.of_nat (fst ie))) (snd ie))) l) = []).
  { induction l as [|ie l IH]; [split; reflexivity | exact IH]. }
  destruct (Hs (combine (seq 0 (Z.to_nat (fm_mapped_extents f)))
                        (firstn (Z.to_nat (fm_mapped_extents f)) (fm_extents f)))) as [-> ->].
  destruct (chunk =? 0); split; reflexivity.
Qed.

(** A query whose answer is dumped adds one chunk summary, under the
    header if it is the first. *)
Lemma listing_after_dump (log : list event) (n : Z) (req f : fiemap) :
  0 <= n -> fits n ->
  summary_lines log = headed (retrieved_lines log) ->
  total (retrieved_lines log) = n ->
  (n = 0 -> retrieved_lines log = []) ->
  retrieved_lines (log ++ EvIoctl req :: dump_lines f (to_int n))
  = retrieved_lines log ++ [fm_mapped_extents f] /\
  summary_lines (log ++ EvIoctl req :: dump_lines f (to_int n))
  = headed (retrieved_lines log ++ [fm_mapped_extents f]).
Proof.
  intros Hn Hfit Hsum Htot Hzero.
  rewrite retrieved_lines_app, summary_lines_app. cbn [retrieved_lines summary_lines].
  destruct (summary_lines_dump_lines f (to_int n)) as [-> ->].
  split; [reflexivity|].
  rewrite to_int_small by (unfold fits, INT_MAX, sizeof_fiemap_extent in Hfit; pow2; lia).
  rewrite Hsum. destruct (Z.eqb_spec n 0) as [H0 | Hne].
  - rewrite (Hzero H0). reflexivity.
  - destruct (retrieved_lines log) as [|c cs]; [cbn in Htot; lia|].
    cbn [headed app map]. now rewrite map_app.
Qed.

Section Listing.

Variable len : Z.
Variable junk : fiemap_extent.

(** Through the loop the listing keeps one header above its chunk
    summaries, and their counts add up to the running count. *)
Lemma fiemap_loop_listing (chunks : list chunk_io) :
  forall s : loop_state,
  acc_ok s -> wf_script chunks = true -> listing_ok s ->
  summary_lines (exit_log (fiemap_loop len junk chunks s))
  = headed (retrieved_lines (exit_log (fiemap_loop len junk chunks s))) /\
  match fiemap_loop len junk chunks s with
  | LoopDone s' => total (retrieved_lines (st_log s')) = result_extents s'
  | _ => True
  end.
Proof.
  induction chunks as [|io rest IH]; intros s Hok Hwf Hlist;
    pose proof Hok as (Hre & Hfit & _); pose proof Hlist as (Hsum & Htot & Hzero).
  - destruct (Z_lt_dec (fiemap_start s) len) as [Hlt | Hge].
    + rewrite fiemap_loop_blocked by assumption. unfold emit. cbn [exit_log st_log].
      rewrite summary_lines_app, retrieved_lines_app. cbn.
      now rewrite !app_nil_r.
    + rewrite fiemap_loop_exit by lia. cbn [exit_log]. now split.
  - destruct (Z_lt_dec (fiemap_start s) len) as [Hlt | Hge].
    2:{ rewrite fiemap_loop_exit by lia. cbn [exit_log]. now split. }
    apply forallb_cons_inv in Hwf as [Hwio Hwf].
    rewrite fiemap_loop_enter by assumption.
    destruct (loop_body_cases len junk io s Hok Hwio)
      as [(errno & Hio & ->) | [(Hio & ->) | [(x & Hio & Hne & Hwhy & ->) | (x & Hio & Hne & Hmem & Hfits & ->)]]].
    + unfold emit. cbn [exit_log st_log].
      rewrite summary_lines_app, retrieved_lines_app. cbn.
      now rewrite !app_nil_r.
    + unfold emit. cbn [exit_log st_log result_extents].
      destruct (listing_after_dump (st_log s) (result_extents s)
                  (chunk_request (fiemap_start s) len)
                  (ioctl_fill (chunk_request (fiemap_start s) len) [])
                  Hre Hfit Hsum Htot Hzero) as [-> ->].
      split; [reflexivity|]. rewrite total_app, Htot. cbn. lia.
    + unfold emit. cbn [exit_log st_log].
      rewrite app_comm_cons, app_assoc.
      rewrite summary_lines_app, retrieved_lines_app.
      destruct (listing_after_dump (st_log s) (result_extents s)
                  (chunk_request (fiemap_start s) len)
                  (ioctl_fill (chunk_request (fiemap_start s) len) x)
                  Hre Hfit Hsum Htot Hzero) as [-> ->].
      cbn [summary_lines retrieved_lines]. now rewrite !app_nil_r.
    + assert (Hok' : acc_ok (appended len x s)) by now apply acc_ok_appended.
      destruct (listing_after_dump (st_log s) (result_extents s)
                  (chunk_request (fiemap_start s) len)
                  (ioctl_fill (chunk_request (fiemap_start s) len) x)
                  Hre Hfit Hsum Htot Hzero) as [Hr Hs].
      assert (Hlist' : listing_ok (appended len x s)).
      { unfold listing_ok, appended. cbn [st_log result_extents].
        rewrite Hr, Hs. split; [reflexivity|]. split.
        - rewrite total_app, Htot, ioctl_fill_mapped. cbn. lia.
        - destruct x; [congruence | cbn [length]; lia]. }
      destruct (flagged_last (last_extent x)).
      * cbn [exit_log]. split; apply Hlist'.
      * now apply IH.
Qed.

End Listing.

(** X12.  The listing of a run has its column header (fiemap.c:49-51)
    exactly once, above the first chunk summary, and none when no chunk was
    dumped; it ends with the "fiemap done" line (fiemap.c:173) exactly when
    the map is returned, and the count of that line, the number of extents
    in the map, is the sum of the counts of the chunk summaries
    (fiemap.c:61). *)
Theorem summary_lines_add_up (h : heap) (w : world) :
  wf_script (w_chunks w) = true ->
  summary_lines (log_of (read_fiemap h w))
  = headed (retrieved_lines (log_of (read_fiemap h w))) ++
    match result_of (read_fiemap h w) with
    | Some r => [OutDone (fm_mapped_extents r)]
    | None => []
    end /\
  match result_of (read_fiemap h w) with
  | Some r => total (retrieved_lines (log_of (read_fiemap h w))) = fm_mapped_extents r
  | None => True
  end.
Proof.
  intros Hwf.
  destruct (w_fstat w) as [errno | st_size] eqn:Hs.
  { unfold read_fiemap. rewrite Hs. now split. }
  destruct (w_malloc_fiemap w) eqn:Hm1.
  2:{ unfold read_fiemap, malloc. rewrite Hs, Hm1. now split. }
  destruct (w_malloc_result w) eqn:Hm2.
  2:{ unfold read_fiemap, malloc. rewrite Hs, Hm1, Hm2. now split. }
  rewrite (read_fiemap_enter h w st_size Hs Hm1 Hm2).
  pose proof (fiemap_loop_listing (to_u64 st_size) (w_junk w) (w_chunks w)
                (initial_state w (S (next h)) (entry_heap h))
                (acc_ok_initial _ _ _) Hwf) as Hl.
  destruct Hl as [Hsum Htot]; [unfold listing_ok; cbn; auto|].
  destruct (fiemap_loop _ _ _ _) as [s' | s' | s' |];
    cbn [exit_log log_of result_of fm_mapped_extents set_mapped_extents] in *.
  - rewrite summary_lines_app, retrieved_lines_app, Hsum. cbn.
    rewrite app_nil_r. now split.
  - rewrite app_nil_r. now split.
  - rewrite app_nil_r. now split.
  - now split.
Qed.

(** An instance of X12: the three-chunk file. *)
Lemma summary_lines_add_up_example :
  summary_lines (log_of (read_fiemap empty_heap three_chunk_file))
  = headed (retrieved_lines (log_of (read_fiemap empty_heap three_chunk_file))) ++
    match result_of (read_fiemap empty_heap three_chunk_file) with
    | Some r => [OutDone (fm_mapped_extents r)]
    | None => []
    end /\
  match result_of (read_fiemap empty_heap three_chunk_file) with
  | Some r => total (retrieved_lines (log_of (read_fiemap empty_heap three_chunk_file)))
              = fm_mapped_extents r
  | None => True
  end.
Proof.
  apply (summary_lines_add_up empty_heap three_chunk_file). vm_compute. reflexivity.
Defined.
